(** * The reconciler of [services/metric/metric.py]

  A shallow embedding of the stream-join engine of the metric service:
  the two consumer callbacks [on_y_true] and [on_y_pred], the finalizer
  [try_finalize] and the evictor [cleanup_old_records], together with
  the part of the Python runtime they lean on ([str], [float], dict
  subscripts, [float > int]).

  Python floats are IEEE binary64 numbers: they are modelled by Rocq's
  primitive floats, whose operations are the hardware ones.  The two
  dicts [buffer] and [buffer_ts] are finite maps keyed by strings.

  Around the engine: [connect_with_retry], which the three services
  share; [ensure_csv_with_header] and [append_metric_row] on the file they
  write; one turn of the generator of [services/features/features.py] and
  the callback [on_message] of [services/model/model.py]. *)

From Stdlib Require Import ZArith Ascii String PrimFloat FloatOps SpecFloat.
From stdpp Require Import gmap strings list fin_maps pretty.

Local Open Scope Z_scope.

(** ** Python floats *)

Module PyFloat.

(** [x > n] for a float [x] and an int [n].  CPython compares the two
    exactly (no conversion of the int to a float); a NaN compares false. *)
Definition gt_int (x : float) (n : Z) : bool :=
  match Prim2SF x with
  | S754_nan => false
  | S754_infinity s => negb s
  | S754_zero _ => n <? 0
  | S754_finite s m e =>
      let v := if s then Z.neg m else Z.pos m in
      if 0 <=? e then n <? v * 2 ^ e else n * 2 ^ (- e) <? v
  end.

(** [float(n)] for an int [n]: the nearest float, ties to even;
    [None] stands for the OverflowError of an int that is too large. *)
Definition of_int (n : Z) : option float :=
  match binary_normalize prec emax n 0 false with
  | S754_infinity _ => None
  | sf => Some (SF2Prim sf)
  end.

(** *** [repr(x)]: the shortest decimal string that reads back as [x] *)

Definition ndigits (n : Z) : Z := Z.of_nat (String.length (pretty n)).

(** The value [m * 2^e] and the end points of its rounding interval, as
    numerators over the common denominator returned last. *)
Definition interval (m : positive) (e : Z) : Z * Z * Z * Z :=
  let lowstep := if (Z.pos m =? 2 ^ 52) && (-1074 <? e) then 1 else 2 in
  let e2 := e - 2 in
  let sc := if 0 <=? e2 then 2 ^ e2 else 1 in
  let d := if 0 <=? e2 then 1 else 2 ^ (- e2) in
  ((4 * Z.pos m - lowstep) * sc, 4 * Z.pos m * sc, (4 * Z.pos m + 2) * sc, d).

(** The [k] with [10^k <= nv/d < 10^(k+1)]. *)
Definition dec_exponent (nv d : Z) : Z :=
  if d <=? nv then ndigits (nv / d) - 1
  else
    let j := ndigits (d / nv) in
    if d <=? nv * 10 ^ (j - 1) then - (j - 1) else - j.

(** One attempt with [n] significant digits: the digits as an integer,
    when the truncated value or its successor falls in the interval. *)
Definition try_digits (even : bool) (nl nv nh d k n : Z) : option Z :=
  let s := k + 1 - n in
  let up := if 0 <=? s then 1 else 10 ^ (- s) in
  let b := if 0 <=? s then d * 10 ^ s else d in
  let lo := (nv * up) / b in
  let r := (nv * up) mod b in
  let inside c :=
    if even then (nl * up <=? c * b) && (c * b <=? nh * up)
    else (nl * up <? c * b) && (c * b <? nh * up) in
  match inside lo, inside (lo + 1) with
  | true, true =>
      if 2 * r <? b then Some lo
      else if b <? 2 * r then Some (lo + 1)
      else if Z.even lo then Some lo else Some (lo + 1)
  | true, false => Some lo
  | false, true => Some (lo + 1)
  | false, false => None
  end.

Fixpoint shortest (fuel : nat) (even : bool) (nl nv nh d k n : Z) : Z * Z :=
  match fuel with
  | O => ((nv * (if 0 <=? k - 16 then 1 else 10 ^ (16 - k)))
            / (if 0 <=? k - 16 then d * 10 ^ (k - 16) else d), n)
  | S fuel' =>
      match try_digits even nl nv nh d k n with
      | Some c => (c, n)
      | None => shortest fuel' even nl nv nh d k (n + 1)
      end
  end.

Fixpoint strip_zeros (fuel : nat) (c : Z) : Z :=
  match fuel with
  | O => c
  | S fuel' => if (c mod 10 =? 0) && (0 <? c) then strip_zeros fuel' (c / 10) else c
  end.

(** The digit string (no trailing zeros) and [decpt], with
    [m * 2^e = 0.digits * 10^decpt]. *)
Definition digits (m : positive) (e : Z) : string * Z :=
  let '(nl, nv, nh, d) := interval m e in
  let k := dec_exponent nv d in
  let '(c, n) := shortest 17 (Z.even (Z.pos m)) nl nv nh d k 1 in
  let decpt := k + 1 + (ndigits c - n) in
  (pretty (strip_zeros 17 c), decpt).

Definition zeros (n : Z) : string :=
  String.string_of_list_ascii (repeat "0"%char (Z.to_nat n)).

Definition take (n : Z) (s : string) : string := String.substring 0 (Z.to_nat n) s.
Definition drop (n : Z) (s : string) : string :=
  String.substring (Z.to_nat n) (String.length s - Z.to_nat n) s.

Definition exponent_suffix (x : Z) : string :=
  let a := pretty (Z.abs x) in
  (if x <? 0 then "e-" else "e+") +:+ (if Z.abs x <? 10 then "0" +:+ a else a).

Definition format_short (ds : string) (decpt : Z) : string :=
  let len := Z.of_nat (String.length ds) in
  if (decpt <=? -4) || (16 <? decpt) then
    take 1 ds +:+ (if 1 <? len then "." +:+ drop 1 ds else EmptyString)
           +:+ exponent_suffix (decpt - 1)
  else if decpt <=? 0 then "0." +:+ zeros (- decpt) +:+ ds
  else if len <=? decpt then ds +:+ zeros (decpt - len) +:+ ".0"
  else take decpt ds +:+ "." +:+ drop decpt ds.

Definition repr (x : float) : string :=
  match Prim2SF x with
  | S754_nan => "nan"
  | S754_infinity s => if s then "-inf" else "inf"
  | S754_zero s => if s then "-0.0" else "0.0"
  | S754_finite s m e =>
      let '(ds, decpt) := digits m e in
      (if s then "-" else EmptyString) +:+ format_short ds decpt
  end.

End PyFloat.

(** ** Python values and the built-ins the callbacks apply to them *)

(** What [json.loads] can return. A dict is kept as its list of items;
  a subscript takes the first item with the key. *)
Unset Elimination Schemes.
Inductive pyval :=
| VNone
| VBool (b : bool)
| VInt (n : Z)
| VFloat (x : float)
| VStr (s : string)
| VList (xs : list pyval)
| VDict (items : list (string * pyval)).
Set Elimination Schemes.

Inductive exn :=
| JSONDecodeError | KeyError | TypeError | ValueError | OverflowError | OSError
| AMQPError.

(** The two built-ins whose result depends on the Unicode tables of the
  interpreter: [repr] of a str (used by [str] of a list or a dict) and
  [float] of a str. *)
Class PyRuntime := {
str_repr : string → string;
float_of_str : string → option float
}.

Section Builtins.
Context {rt : PyRuntime}.

Definition join (sep : string) (parts : list string) : string := String.concat sep parts.

Fixpoint py_repr (v : pyval) : string :=
  match v with
  | VNone => "None"
  | VBool b => if b then "True" else "False"
  | VInt n => pretty n
  | VFloat x => PyFloat.repr x
  | VStr s => str_repr s
  | VList xs => "[" +:+ join ", " (List.map py_repr xs) +:+ "]"
  | VDict items =>
      "{" +:+ join ", " (List.map (λ kv, let '(k, w) := kv in
                                         str_repr k +:+ ": " +:+ py_repr w) items) +:+ "}"
  end.

(** [str(v)] *)
Definition py_str (v : pyval) : string :=
  match v with
  | VStr s => s
  | _ => py_repr v
  end.

(** [float(v)] *)
Definition py_float (v : pyval) : exn + float :=
  match v with
  | VFloat x => inr x
  | VInt n => from_option inr (inl OverflowError) (PyFloat.of_int n)
  | VBool b => inr (if b then 1%float else 0%float)
  | VStr s => from_option inr (inl ValueError) (float_of_str s)
  | VNone | VList _ | VDict _ => inl TypeError
  end.

Fixpoint assoc (key : string) (items : list (string * pyval)) : option pyval :=
  match items with
  | [] => None
  | (k, w) :: rest => if String.eqb k key then Some w else assoc key rest
  end.

(** [v[key]] for a str [key] *)
Definition py_getitem (v : pyval) (key : string) : exn + pyval :=
  match v with
  | VDict items => from_option inr (inl KeyError) (assoc key items)
  | _ => inl TypeError
  end.

End Builtins.

(** ** The state of the consumer *)

(** A value of [buffer]: the dict [{"y_true": ..., "y_pred": ...}]. *)
Record entry := Entry { y_true : option float; y_pred : option float }.

(** A line of the CSV file, in the order of its header. *)
Record row := Row {
row_id : string; row_y_true : float; row_y_pred : float; absolute_error : float
}.

(** What an append leaves in the file: the line of a row, or, when the
    write raised on its way, the first [written] characters of that line. *)
Inductive line :=
| Whole (r : row)
| Torn (written : nat) (r : row).

(** The row that a line was written from. *)
Definition row_of (l : line) : row :=
  match l with
  | Whole r | Torn _ r => r
  end.

Inductive side := Truth | Predicted.

#[global] Instance side_eq_dec : EqDecision side.
Proof. solve_decision. Defined.

(** What the process did, oldest first. The code keeps no such list: it is
  a record of the effects, written by the model and never read by it. *)
Inductive event :=
| Upserted (message_id : string) (sd : side) (v : float)
| Appended (r : row)
| Finalized (message_id : string)
| Swept (now : float) (deleted : list (string * float))
| Acked (delivery_tag : Z)
| Ack_raised (delivery_tag : Z)
| Nacked (delivery_tag : Z) (requeue : bool).

Record state := State {
buffer : gmap string entry;
buffer_ts : gmap string float;
metric_log : list line;
trace : list event
}.

Definition initial : state := State ∅ ∅ [] [].

Definition set_buffer (f : gmap string entry → gmap string entry) (s : state) : state :=
State (f (buffer s)) (buffer_ts s) (metric_log s) (trace s).
Definition set_buffer_ts (f : gmap string float → gmap string float) (s : state) : state :=
State (buffer s) (f (buffer_ts s)) (metric_log s) (trace s).
Definition log_line (l : line) (s : state) : state :=
State (buffer s) (buffer_ts s) (metric_log s ++ [l]) (trace s).
Definition record (ev : event) (s : state) : state :=
State (buffer s) (buffer_ts s) (metric_log s) (trace s ++ [ev]).

(** ** Statements that may raise *)

Inductive result (A : Type) :=
| Return (a : A)
| Raise (e : exn).
Arguments Return {A} a.
Arguments Raise {A} e.

Definition M (A : Type) : Type := state → result A * state.

Definition ret {A} (a : A) : M A := λ s, (Return a, s).
Definition raise {A} (e : exn) : M A := λ s, (Raise e, s).
Definition bind {A B} (m : M A) (k : A → M B) : M B := λ s,
match m s with
| (Return a, s') => k a s'
| (Raise e, s') => (Raise e, s')
end.
Definition get : M state := λ s, (Return s, s).
Definition modify (f : state → state) : M unit := λ s, (Return tt, f s).
Definition lift {A} (r : exn + A) : M A :=
match r with
| inl e => raise e
| inr a => ret a
end.
(** [try: body except Exception: handler] *)
Definition try_except (body handler : M unit) : M unit := λ s,
match body s with
| (Return tt, s') => (Return tt, s')
| (Raise _, s') => handler s'
end.

Declare Scope py_scope.
Delimit Scope py_scope with py.
Notation "x <- m ;; k" := (bind m (λ x, k))
(at level 100, m at next level, right associativity) : py_scope.
Notation "m ;; k" := (bind m (λ _, k))
(at level 100, right associativity) : py_scope.
Local Open Scope py_scope.

(** ** The callbacks of [main] *)

(** How a call of [append_metric_row] ends: it returns, the line being in
    the file; [open] raises, the file being as before; or [writerow],
    [flush] or the closing of the file raises, [written] characters of the
    line having reached the file. *)
Inductive sink_outcome :=
| Appends
| Open_raises
| Write_raises (written : nat).

(** What one delivery meets outside the process: the clock at the
    [time.time()] of the upsert (read only when the id is new), the clock
    at the [time.time()] of the sweep, how the append to the CSV file ends,
    and whether [basic_ack] returns. *)
Record env := Env {
  time_upsert : float; time_sweep : float; sink : sink_outcome; ack_ok : bool
}.

(** Does the append go through? *)
Definition append_ok (w : env) : bool :=
  match sink w with
  | Appends => true
  | Open_raises | Write_raises _ => false
  end.

(** The body of a delivery as [json.loads(body.decode("utf-8"))] sees it:
    the call raises (a UnicodeDecodeError or a JSONDecodeError, one
    constructor here), or returns a document. *)
Inductive body :=
| Malformed
| Document (doc : pyval).

Definition json_loads (b : body) : M pyval :=
  match b with
  | Malformed => raise JSONDecodeError
  | Document doc => ret doc
  end.

(** [append_metric_row]: the file gains the line of the row; or the call
    raises, and the file has gained what was written of the line by then. *)
Definition append_metric_row (o : sink_outcome) (r : row) : M unit :=
  match o with
  | Appends => modify (λ s, record (Appended r) (log_line (Whole r) s))
  | Open_raises => raise OSError
  | Write_raises written => modify (log_line (Torn written r)) ;; raise OSError
  end.

Definition try_finalize (o : sink_outcome) (message_id : string) : M unit :=
  s <- get ;;
  match buffer s !! message_id with
  | None => ret tt
  | Some e =>
      match y_true e, y_pred e with
      | Some y_true_val, Some y_pred_val =>
          let absolute_error := PrimFloat.abs (PrimFloat.sub y_true_val y_pred_val) in
          append_metric_row o (Row message_id y_true_val y_pred_val absolute_error) ;;
          modify (set_buffer (delete message_id)) ;;
          modify (set_buffer_ts (delete message_id)) ;;
          modify (record (Finalized message_id))
      | _, _ => ret tt
      end
  end.

Section Callbacks.
Context {rt : PyRuntime}.
Variable buffer_ttl_seconds : Z.

(** [now - ts > buffer_ttl_seconds] *)
Definition expired (now ts : float) : bool :=
  PyFloat.gt_int (PrimFloat.sub now ts) buffer_ttl_seconds.

(** [del buffer_ts[message_id]], a KeyError when the key is missing. *)
Definition del_buffer_ts (message_id : string) : M unit :=
  s <- get ;;
  match buffer_ts s !! message_id with
  | None => raise KeyError
  | Some _ => modify (set_buffer_ts (delete message_id))
  end.

Fixpoint delete_all (to_delete : list string) : M unit :=
  match to_delete with
  | [] => ret tt
  | message_id :: rest =>
      modify (set_buffer (delete message_id)) ;;
      del_buffer_ts message_id ;;
      delete_all rest
  end.

(** The items of [buffer_ts] that the sweep at [now] selects. *)
Definition overdue (now : float) (s : state) : list (string * float) :=
  filter (λ kv, expired now kv.2 = true) (map_to_list (buffer_ts s)).

Definition cleanup_old_records (now : float) : M unit :=
  s <- get ;;
  let to_delete := (overdue now s).*1 in
  delete_all to_delete ;;
  modify (record (Swept now (overdue now s))).

(** Lines 133-137 and 155-159: create the entry when the id is new, then
    store the value on its side. *)
Definition set_side (sd : side) (v : float) (e : entry) : entry :=
  match sd with
  | Truth => Entry (Some v) (y_pred e)
  | Predicted => Entry (y_true e) (Some v)
  end.

Definition upsert (now : float) (message_id : string) (sd : side) (v : float) : M unit :=
  s <- get ;;
  (if decide (is_Some (buffer s !! message_id)) then ret tt
   else modify (set_buffer <[message_id := Entry None None]>) ;;
        modify (set_buffer_ts <[message_id := now]>)) ;;
  s <- get ;;
  match buffer s !! message_id with
  | None => raise KeyError
  | Some e =>
      modify (set_buffer <[message_id := set_side sd v e]>) ;;
      modify (record (Upserted message_id sd v))
  end.

(** [ch.basic_ack]: it returns, or it raises, as it does on a channel that
    was closed meanwhile. *)
Definition basic_ack (ok : bool) (delivery_tag : Z) : M unit :=
  if ok then modify (record (Acked delivery_tag))
  else modify (record (Ack_raised delivery_tag)) ;; raise AMQPError.

(** [ch.basic_nack], the one statement of the handler. It is taken to
    return: an exception of it leaves the callback and ends
    [start_consuming], and the process with it. *)
Definition basic_nack (delivery_tag : Z) (requeue : bool) : M unit :=
  modify (record (Nacked delivery_tag requeue)).

Definition on_y_true (w : env) (delivery_tag : Z) (b : body) : M unit :=
  try_except
    (msg <- json_loads b ;;
     id_field <- lift (py_getitem msg "id") ;;
     let message_id := py_str id_field in
     body_field <- lift (py_getitem msg "body") ;;
     y_true_val <- lift (py_float body_field) ;;
     upsert (time_upsert w) message_id Truth y_true_val ;;
     try_finalize (sink w) message_id ;;
     cleanup_old_records (time_sweep w) ;;
     basic_ack (ack_ok w) delivery_tag)
    (basic_nack delivery_tag true).

Definition on_y_pred (w : env) (delivery_tag : Z) (b : body) : M unit :=
  try_except
    (msg <- json_loads b ;;
     id_field <- lift (py_getitem msg "id") ;;
     let message_id := py_str id_field in
     body_field <- lift (py_getitem msg "body") ;;
     y_pred_val <- lift (py_float body_field) ;;
     upsert (time_upsert w) message_id Predicted y_pred_val ;;
     try_finalize (sink w) message_id ;;
     cleanup_old_records (time_sweep w) ;;
     basic_ack (ack_ok w) delivery_tag)
    (basic_nack delivery_tag true).

(** The first three statements of either [try] block: the key and the
    value of a delivery, or the exception raised on the way. *)
Definition decode (b : body) : exn + (string * float) :=
  match b with
  | Malformed => inl JSONDecodeError
  | Document msg =>
      match py_getitem msg "id" with
      | inl e => inl e
      | inr id_field =>
          match py_getitem msg "body" with
          | inl e => inl e
          | inr body_field =>
              match py_float body_field with
              | inl e => inl e
              | inr val => inr (py_str id_field, val)
              end
          end
      end
  end.

(** The rest of the [try] block, up to the acknowledgement. *)
Definition chain (sd : side) (w : env) (message_id : string) (val : float) : M unit :=
  upsert (time_upsert w) message_id sd val ;;
  try_finalize (sink w) message_id ;;
  cleanup_old_records (time_sweep w).

(** One delivery from either queue, and a run of deliveries. *)
Record delivery := Delivery {
  queue : side; world : env; tag : Z; payload : body
}.

Definition callback (d : delivery) : M unit :=
  match queue d with
  | Truth => on_y_true (world d) (tag d) (payload d)
  | Predicted => on_y_pred (world d) (tag d) (payload d)
  end.

Definition consume (s : state) (d : delivery) : state := (callback d s).2.

Definition run (ds : list delivery) (s : state) : state := foldl consume s ds.

Inductive reachable : state → Prop :=
| reachable_initial : reachable initial
| reachable_consume s d : reachable s → reachable (consume s d).

End Callbacks.

(** ** The two built-ins on ASCII strings

    [repr] and [float] of a str as CPython computes them when every
    character of the str is ASCII; a string stands for the characters of
    the str, one per byte. *)

Module Ascii_runtime.

Definition code (c : ascii) : Z := Z.of_N (N_of_ascii c).

Definition is_digit (c : ascii) : bool := (48 <=? code c) && (code c <=? 57).

(** [Py_ISSPACE]: space, and the characters 9 to 13. *)
Definition is_space (c : ascii) : bool :=
  (code c =? 32) || ((9 <=? code c) && (code c <=? 13)).

Definition lower (c : ascii) : ascii :=
  if (65 <=? code c) && (code c <=? 90) then ascii_of_N (Z.to_N (code c + 32)) else c.

Definition hex_digit (n : Z) : ascii :=
  ascii_of_N (Z.to_N (if n <? 10 then 48 + n else 87 + n)).

(** *** [repr(s)] *)

Definition has (c : ascii) (s : list ascii) : bool := existsb (Ascii.eqb c) s.

Definition backslash : ascii := "092"%char.
Definition apostrophe : ascii := "039"%char.
Definition quotation : ascii := "034"%char.

Definition escape (quote c : ascii) : list ascii :=
  if Ascii.eqb c quote || Ascii.eqb c backslash then [backslash; c]
  else if code c =? 9 then [backslash; "t"%char]
  else if code c =? 10 then [backslash; "n"%char]
  else if code c =? 13 then [backslash; "r"%char]
  else if (code c <? 32) || (code c =? 127)
       then [backslash; "x"%char; hex_digit (code c / 16); hex_digit (code c mod 16)]
  else [c].

Definition repr (s : string) : string :=
  let cs := list_ascii_of_string s in
  let quote := if has apostrophe cs && negb (has quotation cs) then quotation else apostrophe in
  string_of_list_ascii ([quote] ++ concat (List.map (escape quote) cs) ++ [quote]).

(** *** [float(s)] *)

(** The copy without underscores; an underscore must stand between two
    digits. *)
Fixpoint drop_underscores (prev : ascii) (s : list ascii) : option (list ascii) :=
  match s with
  | [] => if Ascii.eqb prev "_" then None else Some []
  | c :: rest =>
      if Ascii.eqb c "_" then
        if is_digit prev then drop_underscores c rest else None
      else if Ascii.eqb prev "_" && negb (is_digit c) then None
      else option_map (cons c) (drop_underscores c rest)
  end.

Fixpoint lstrip (s : list ascii) : list ascii :=
  match s with
  | c :: rest => if is_space c then lstrip rest else s
  | [] => []
  end.

(** Trailing spaces go, but never the first character. *)
Definition strip (s : list ascii) : list ascii :=
  match lstrip s with
  | [] => []
  | c :: rest => c :: rev (lstrip (rev rest))
  end.

Definition read_sign (s : list ascii) : bool * list ascii :=
  match s with
  | "-"%char :: rest => (true, rest)
  | "+"%char :: rest => (false, rest)
  | _ => (false, s)
  end.

(** The digits at the head of [s], read after the value [acc]: the value,
    how many digits were read, and what follows them. *)
Fixpoint read_digits (s : list ascii) (acc count : Z) : Z * Z * list ascii :=
  match s with
  | c :: rest =>
      if is_digit c then read_digits rest (10 * acc + (code c - 48)) (count + 1)
      else (acc, count, s)
  | [] => (acc, count, [])
  end.

(** The float nearest to [d * 10^x], ties to even. *)
Definition round_decimal (neg : bool) (d x : Z) : spec_float :=
  if d =? 0 then S754_zero neg
  else
    let sf :=
      if 0 <=? x then binary_normalize prec emax (d * 10 ^ x) 0 false
      else
        let den := 10 ^ (- x) in
        let sh := Z.max 0 (64 + Z.log2 den - Z.log2 d) in
        let q := (d * 2 ^ sh) / den in
        let sticky := if (d * 2 ^ sh) mod den =? 0 then 0 else 1 in
        binary_normalize prec emax (2 * q + sticky) (- sh - 1) false in
    if neg then SFopp sf else sf.

Definition parse_number (s : list ascii) : option spec_float :=
  let '(neg, s1) := read_sign s in
  let word := string_of_list_ascii (List.map lower s1) in
  if String.eqb word "inf" || String.eqb word "infinity" then Some (S754_infinity neg)
  else if String.eqb word "nan" then Some S754_nan
  else
    let '(ip, n_ip, s2) := read_digits s1 0 0 in
    let '(d, n_fp, s3) :=
      match s2 with
      | "."%char :: t => read_digits t ip 0
      | _ => (ip, 0, s2)
      end in
    if n_ip + n_fp =? 0 then None
    else
      let '(ex, s4) :=
        match s3 with
        | c :: t =>
            if Ascii.eqb (lower c) "e" then
              let '(eneg, t1) := read_sign t in
              let '(ev, n_e, t2) := read_digits t1 0 0 in
              if n_e =? 0 then (0, s3) else (if eneg then - ev else ev, t2)
            else (0, s3)
        | [] => (0, [])
        end in
      match s4 with
      | [] => Some (round_decimal neg d (ex - n_fp))
      | _ :: _ => None
      end.

Definition float_of (s : string) : option float :=
  match drop_underscores "000"%char (list_ascii_of_string s) with
  | None => None
  | Some cs => option_map SF2Prim (parse_number (strip cs))
  end.

End Ascii_runtime.

Definition ascii_runtime : PyRuntime :=
  {| str_repr := Ascii_runtime.repr; float_of_str := Ascii_runtime.float_of |}.

(** ** Notions used in the statements *)

Definition other (sd : side) : side :=
  match sd with
  | Truth => Predicted
  | Predicted => Truth
  end.

Definition stored (sd : side) (e : entry) : option float :=
  match sd with
  | Truth => y_true e
  | Predicted => y_pred e
  end.

(** The value that the store holds for [message_id] on side [sd], if any. *)
Definition held (s : state) (message_id : string) (sd : side) : option float :=
  buffer s !! message_id ≫= stored sd.

(** The row that joins a value [v] arriving on side [sd] with the value
    [vo] of the other side. *)
Definition join_row (message_id : string) (sd : side) (v vo : float) : row :=
  match sd with
  | Truth => Row message_id v vo (PrimFloat.abs (PrimFloat.sub v vo))
  | Predicted => Row message_id vo v (PrimFloat.abs (PrimFloat.sub vo v))
  end.

(** The lines of the file that carry a given id. *)
Definition rows_of (message_id : string) (l : list line) : list line :=
  filter (λ ln, row_id (row_of ln) = message_id) l.

(** Every entry has a first-seen time and every time an entry. *)
Definition consistent (s : state) : Prop :=
  ∀ k, is_Some (buffer s !! k) ↔ is_Some (buffer_ts s !! k).

(** The entry of [message_id] holds [v] on side [sd], nothing on the other
    side, and was first seen at [ts]. *)
Definition waits (s : state) (message_id : string) (sd : side) (v ts : float) : Prop :=
  buffer s !! message_id = Some (set_side sd v (Entry None None))
  ∧ buffer_ts s !! message_id = Some ts.

(** *** The life of one identifier, read off the trace *)

Inductive life := Arrival | Finalize | Evict.

Definition life_of (message_id : string) (ev : event) : list life :=
  match ev with
  | Upserted k _ _ => if decide (k = message_id) then [Arrival] else []
  | Finalized k => if decide (k = message_id) then [Finalize] else []
  | Swept _ deleted => if decide (message_id ∈ deleted.*1) then [Evict] else []
  | Appended _ | Acked _ | Ack_raised _ | Nacked _ _ => []
  end.

Definition lifecycle (message_id : string) (tr : list event) : list life :=
  concat (List.map (life_of message_id) tr).

(** Is an entry there after the events [l], [p] telling whether one was
    there before them? *)
Definition presence (p : bool) (l : list life) : bool :=
  match last l with
  | Some Arrival => true
  | Some (Finalize | Evict) => false
  | None => p
  end.

(** Has a side arrived since the last removal (or ever, if there was none)? *)
Definition pending (l : list life) : bool := presence false l.

(** Every removal follows an arrival directly: an entry that is removed
    was there, and it is not removed a second time. *)
Fixpoint orderly_from (present : bool) (l : list life) : bool :=
  match l with
  | [] => true
  | Arrival :: rest => orderly_from true rest
  | (Finalize | Evict) :: rest => present && orderly_from false rest
  end.

Definition orderly (l : list life) : bool := orderly_from false l.

(** The part of the invariant that speaks of one identifier. *)
Definition life_ok (k : string) (s : state) : Prop :=
  (is_Some (buffer s !! k) ↔ pending (lifecycle k (trace s)) = true)
  ∧ orderly (lifecycle k (trace s)) = true.

(** Every append of a row is followed at once by the deletion of the entry
    of that row, and there is no other deletion by [try_finalize]. *)
Fixpoint paired (tr : list event) : bool :=
  match tr with
  | [] => true
  | Appended r :: Finalized k :: rest => bool_decide (row_id r = k) && paired rest
  | Appended _ :: _ => false
  | Finalized _ :: _ => false
  | _ :: rest => paired rest
  end.

(** A sweep deleted only items whose age exceeded the TTL. *)
Definition sweep_honest (ttl : Z) (ev : event) : Prop :=
  match ev with
  | Swept now deleted => Forall (λ kv, expired ttl now kv.2 = true) deleted
  | _ => True
  end.

(** ** The store operations in closed form *)

(** The state that [upsert] leaves. *)
Definition upserted (now : float) (message_id : string) (sd : side) (v : float)
    (s : state) : state :=
  match buffer s !! message_id with
  | Some e =>
      State (<[message_id := set_side sd v e]> (buffer s)) (buffer_ts s)
            (metric_log s) (trace s ++ [Upserted message_id sd v])
  | None =>
      State (<[message_id := set_side sd v (Entry None None)]> (buffer s))
            (<[message_id := now]> (buffer_ts s))
            (metric_log s) (trace s ++ [Upserted message_id sd v])
  end.

(** The state after a successful finalize. *)
Definition joined (message_id : string) (r : row) (s : state) : state :=
  State (delete message_id (buffer s)) (delete message_id (buffer_ts s))
        (metric_log s ++ [Whole r]) (trace s ++ [Appended r; Finalized message_id]).

(** What a failing append leaves in the file. *)
Definition debris (o : sink_outcome) (r : row) : list line :=
  match o with
  | Write_raises written => [Torn written r]
  | Appends | Open_raises => []
  end.

(** The state after an append that raised. *)
Definition littered (o : sink_outcome) (r : row) (s : state) : state :=
  State (buffer s) (buffer_ts s) (metric_log s ++ debris o r) (trace s).

(** Is the first-seen time of [k] overdue at [now]? *)
Definition stale (ttl : Z) (now : float) (times : gmap string float) (k : string) : bool :=
  match times !! k with
  | Some ts => expired ttl now ts
  | None => false
  end.

(** What a sweep at [now] keeps of a map keyed like [buffer_ts]. *)
Definition keep {V} (ttl : Z) (now : float) (times : gmap string float)
    (m : gmap string V) : gmap string V :=
  filter (λ kv, stale ttl now times kv.1 = false) m.

(** The state after a sweep. *)
Definition swept (ttl : Z) (now : float) (s : state) : state :=
  State (keep ttl now (buffer_ts s) (buffer s)) (keep ttl now (buffer_ts s) (buffer_ts s))
        (metric_log s) (trace s ++ [Swept now (overdue ttl now s)]).

(** The calls that answer the broker. *)
Definition is_verdict (ev : event) : bool :=
  match ev with
  | Acked _ | Ack_raised _ | Nacked _ _ => true
  | _ => false
  end.

(** How a delivery whose [try] block came to its last statement is
    answered: by [basic_ack], and by [basic_nack] after it when it raised. *)
Definition answer (w : env) (delivery_tag : Z) : list event :=
  if ack_ok w then [Acked delivery_tag]
  else [Ack_raised delivery_tag; Nacked delivery_tag true].

Definition answered (w : env) (delivery_tag : Z) (s : state) : state :=
  State (buffer s) (buffer_ts s) (metric_log s) (trace s ++ answer w delivery_tag).

(** *** Deliveries by the entry they address *)

Section Addressing.
Context {rt : PyRuntime}.

Definition key_of (d : delivery) : option string :=
  match decode (payload d) with
  | inl _ => None
  | inr (k, _) => Some k
  end.

(** [d] carries a value for side [sd] of [message_id]. *)
Definition feeds (d : delivery) (message_id : string) (sd : side) : Prop :=
  key_of d = Some message_id ∧ queue d = sd.

(** [ln] is what the append of a row with the key of [d] leaves when [d]
    is handled: the whole line when the append goes through, the line torn
    after [written] characters when the write raises there. *)
Definition left_by (d : delivery) (ln : line) : Prop :=
  key_of d = Some (row_id (row_of ln))
  ∧ match ln with
    | Whole _ => append_ok (world d) = true
    | Torn written _ => sink (world d) = Write_raises written
    end.

(** The value on side [sd] of [message_id] once [d] is handled, [v] being
    the value before. *)
Definition refresh (message_id : string) (sd : side) (v : float) (d : delivery) : float :=
  match decode (payload d) with
  | inr (k, v') => if bool_decide (k = message_id ∧ queue d = sd) then v' else v
  | inl _ => v
  end.

(** The last value delivered for side [sd] of [message_id], [v] if none. *)
Definition latest (message_id : string) (sd : side) (ds : list delivery) (v : float) : float :=
  foldl (refresh message_id sd) v ds.

(** Why a body yields no key and value. *)
Inductive decode_error : body → Prop :=
| malformed_json : decode_error Malformed
| no_id msg e : py_getitem msg "id" = inl e → decode_error (Document msg)
| no_body msg e : py_getitem msg "body" = inl e → decode_error (Document msg)
| not_a_number msg body_field e :
    py_getitem msg "body" = inr body_field → py_float body_field = inl e →
    decode_error (Document msg).

End Addressing.

(** *** The life of one identifier, read off the deliveries *)

(** An event that is not the store of a side. *)
Definition no_store (ev : event) : Prop :=
  match ev with
  | Upserted _ _ _ => False
  | _ => True
  end.

(** The removals among the lives. *)
Definition removals (l : list life) : list life :=
  flat_map (λ x, match x with Arrival => [] | Finalize | Evict => [x] end) l.

Section Story.
Context {rt : PyRuntime}.
Variable ttl : Z.

(** What handling [d] in state [s] adds to the trace. *)
Definition events (s : state) (d : delivery) : list event :=
  drop (length (trace s)) (trace (consume ttl s d)).

(** The life of [message_id] in a run of deliveries from [s]. A delivery
    whose body decodes to the key [message_id] is the arrival of a side of
    it: this is read off the delivery, not off the trace. The removals are
    those that the trace records while the delivery is handled. *)
Fixpoint story (message_id : string) (ds : list delivery) (s : state) : list life :=
  match ds with
  | [] => []
  | d :: rest =>
      (if decide (key_of d = Some message_id) then [Arrival] else [])
        ++ removals (lifecycle message_id (events s d))
        ++ story message_id rest (consume ttl s d)
  end.

End Story.

(** *** The two orders of a join *)

Definition truth_first (w1 w2 : env) (t1 t2 : Z) (b_true b_pred : body) : list delivery :=
  [Delivery Truth w1 t1 b_true; Delivery Predicted w2 t2 b_pred].

Definition predicted_first (w1 w2 : env) (t1 t2 : Z) (b_true b_pred : body) : list delivery :=
  [Delivery Predicted w1 t1 b_pred; Delivery Truth w2 t2 b_true].

(** The same store and the same file. *)
Definition same_outcome (s1 s2 : state) : Prop :=
  buffer s1 = buffer s2 ∧ buffer_ts s1 = buffer_ts s2 ∧ metric_log s1 = metric_log s2.

(** What follows the upsert in a callback. *)
Definition settle (ttl : Z) (w : env) (k : string) (delivery_tag : Z)
    (s1 : state) : state :=
  match try_finalize (sink w) k s1 with
  | (Return _, s2) => answered w delivery_tag (swept ttl (time_sweep w) s2)
  | (Raise _, s2) => record (Nacked delivery_tag true) s2
  end.

(** *** The scenarios of the specification *)

(** A well-formed message and a delivery of it at clock [t], with a
    working file system. *)
Definition message (id_field body_field : pyval) : body :=
  Document (VDict [("id", id_field); ("body", body_field)]).

Definition deliver (sd : side) (t : float) (delivery_tag : Z)
    (id_field : pyval) (v : float) : delivery :=
  Delivery sd (Env t t Appends true) delivery_tag (message id_field (VFloat v)).

(** Scenario A. The id is the float 17000.1, a timestamp as the generator
    sends it; its [str] is the key. *)
Definition scenario_A : list delivery :=
  [deliver Truth 0 1 (VFloat 0x1.09a0666666666p+14) 142;
   deliver Predicted 5 2 (VFloat 0x1.09a0666666666p+14) 138.5].

(** Scenario B: the only delivery; the sweep at 601 is run on its result. *)
Definition scenario_B : list delivery := [deliver Truth 0 1 (VStr "X") 10].

Definition scenario_C : list delivery :=
  [deliver Predicted 0 1 (VStr "Y") 5;
   deliver Predicted 1 2 (VStr "Y") 5;
   deliver Truth 2 3 (VStr "Y") 4].

(** ** Further notions on the callbacks *)

(** The answers to the broker in a trace, oldest first. *)
Definition verdicts (tr : list event) : list event :=
  filter (λ ev, is_verdict ev = true) tr.

(** A complete line whose last field is the absolute value of the
    difference of the two before it; nothing is asked of a torn line. *)
Definition sound_row (l : line) : Prop :=
  match l with
  | Whole r =>
      absolute_error r = PrimFloat.abs (PrimFloat.sub (row_y_true r) (row_y_pred r))
  | Torn _ _ => True
  end.

(** The calls that answer [d]: a [basic_ack] that returns, a [basic_nack]
    with [requeue=True], or a [basic_ack] that raises and the [basic_nack]
    of the handler after it. *)
Definition answers (d : delivery) (evs : list event) : Prop :=
  evs = [Acked (tag d)]
  ∨ evs = [Nacked (tag d) true]
  ∨ evs = [Ack_raised (tag d); Nacked (tag d) true].

(** ** [connect_with_retry]

    The same function opens [services/metric/metric.py],
    [services/features/features.py] and [services/model/model.py]. *)

Module Retry.

(** One pass through the [try] block: [pika.BlockingConnection(params)]
    returns a connection, or something in the block raises; [why] is [str]
    of the exception. *)
Inductive dial (conn : Type) :=
| Connected (c : conn)
| Refused (why : string).
Arguments Connected {conn} c.
Arguments Refused {conn} why.

(** What the function does to the outside, oldest first: the [n]-th pass
    through the [try] block, counted from 0, and a [time.sleep(seconds)]
    that returned. *)
Inductive step :=
| Dialed (n : nat)
| Slept (seconds : Z).

(** [RuntimeError(msg)] of the last line, and an exception of
    [time.sleep]: raised inside the handler, it leaves the loop and the
    function. *)
Inductive error :=
| RuntimeError (msg : string)
| Escaped (e : exn).

Section Connect.
Context {conn : Type}.

(** The outcome of the [n]-th pass for a host and a port. *)
Variable attempt : string → Z → nat → dial conn.

(** How [time.sleep(seconds)] ends after the [n]-th pass: it returns
    ([None]), or it raises: a [ValueError] on a negative length, an
    [OverflowError] on a length that does not fit the clock of the
    interpreter, the [OSError] of the system call. *)
Variable sleep : Z → nat → option exn.

(** The [for] loop with [todo] passes left, [n] passes made, and what was
    done so far. *)
Fixpoint attempts (host : string) (port sleep_seconds : Z) (todo n : nat)
    (last_error : option string) (done : list step) : (error + conn) * list step :=
  match todo with
  | O =>
      (inl (RuntimeError ("Cannot connect to RabbitMQ: " +:+ default "None" last_error)),
       done)
  | S todo' =>
      match attempt host port n with
      | Connected c => (inr c, done ++ [Dialed n])
      | Refused why =>
          match sleep sleep_seconds n with
          | Some e => (inl (Escaped e), done ++ [Dialed n])
          | None =>
              attempts host port sleep_seconds todo' (S n) (Some why)
                (done ++ [Dialed n; Slept sleep_seconds])
          end
      end
  end.

(** [range(retries)] is empty for [retries <= 0]. *)
Definition connect_with_retry (host : string) (port retries sleep_seconds : Z)
    : (error + conn) * list step :=
  attempts host port sleep_seconds (Z.to_nat retries) 0 None [].

(** The first [n] passes all raised. *)
Definition all_refused (host : string) (port : Z) (n : nat) : Prop :=
  ∀ j, (j < n)%nat → ∃ why, attempt host port j = Refused why.

(** The sleeps after the first [n] passes all returned. *)
Definition all_rested (sleep_seconds : Z) (n : nat) : Prop :=
  ∀ j, (j < n)%nat → sleep sleep_seconds j = None.

(** [str] of the exception of pass [n - 1], ["None"] when there was no pass. *)
Definition last_reason (host : string) (port : Z) (n : nat) : string :=
  match n with
  | O => "None"
  | S m =>
      match attempt host port m with
      | Refused why => why
      | Connected _ => "None"
      end
  end.

End Connect.

(** [n] refused passes, each followed by its sleep. *)
Definition refusals (sleep_seconds : Z) (first n : nat) : list step :=
  flat_map (λ j, [Dialed j; Slept sleep_seconds]) (seq first n).

(** How many passes, and how many seconds of sleep. *)
Definition dials (l : list step) : nat :=
  foldr (λ st acc, match st with Dialed _ => S acc | Slept _ => acc end) O l.

Definition slept (l : list step) : Z :=
  foldr (λ st acc, match st with Slept t => t + acc | Dialed _ => acc end) 0 l.

End Retry.

(** ** The CSV file

    [ensure_csv_with_header] and [append_metric_row] on the node that
    [path] names. What else happens in the file system comes as an outcome:
    whether [os.makedirs] succeeds, and how far a write gets. *)

Module Disk.

Inductive node :=
| Missing
| Directory
| File (content : list ascii).

Inductive os_error :=
| FileNotFoundError
| FileExistsError
| IsADirectoryError
| OtherOSError.

(** *** [os.path.dirname] (posixpath) *)

Definition slash : ascii := "/"%char.

Fixpoint drop_until_slash (cs : list ascii) : list ascii :=
  match cs with
  | c :: rest => if Ascii.eqb c slash then cs else drop_until_slash rest
  | [] => []
  end.

Fixpoint drop_slashes (cs : list ascii) : list ascii :=
  match cs with
  | c :: rest => if Ascii.eqb c slash then drop_slashes rest else cs
  | [] => []
  end.

(** [head = p[:p.rfind('/') + 1]], stripped of its trailing slashes unless
    it is made of slashes only. *)
Definition dirname (p : string) : string :=
  let head := rev (drop_until_slash (rev (list_ascii_of_string p))) in
  string_of_list_ascii
    (if forallb (Ascii.eqb slash) head then head else rev (drop_slashes (rev head))).

(** *** [csv.writer(f).writerow(fields)], default dialect *)

Definition comma : ascii := ","%char.
Definition quote : ascii := "034"%char.
Definition cr : ascii := "013"%char.
Definition lf : ascii := "010"%char.

Definition special (c : ascii) : bool :=
  Ascii.eqb c comma || Ascii.eqb c quote || Ascii.eqb c cr || Ascii.eqb c lf.

(** The characters of a quoted field between its quotes. *)
Definition double_quotes (cs : list ascii) : list ascii :=
  flat_map (λ c, if Ascii.eqb c quote then [quote; quote] else [c]) cs.

(** A field is quoted when it holds the delimiter, a quote or a character
    of the line terminator. *)
Definition csv_field (s : string) : list ascii :=
  let cs := list_ascii_of_string s in
  if existsb special cs then [quote] ++ double_quotes cs ++ [quote] else cs.

Fixpoint join_fields (fs : list (list ascii)) : list ascii :=
  match fs with
  | [] => []
  | [f] => f
  | f :: rest => f ++ comma :: join_fields rest
  end.

(** A record of one empty field is written as two quotes. *)
Definition writerow (fields : list string) : list ascii :=
  match fields with
  | [EmptyString] => [quote; quote; cr; lf]
  | _ => join_fields (List.map csv_field fields) ++ [cr; lf]
  end.

(** *** The two functions *)

(** [os.makedirs(name, exist_ok=True)]: it made the directory (or found
    it), [covers_path] telling whether [path] names that directory or one
    above it; or it raised. *)
Inductive mkdir_outcome :=
| Made (covers_path : bool)
| Mkdir_fails (e : os_error).

(** [open], [writerow] and [flush] on a file: [open] raises; or the write
    raises after [written] bytes reached the file; or all is written. *)
Inductive write_outcome :=
| Open_fails (e : os_error)
| Write_fails (written : nat) (e : os_error)
| Written.

Inductive mode := Truncate | Append.

Definition exists_ (n : node) : bool :=
  match n with
  | Missing => false
  | Directory | File _ => true
  end.

Definition makedirs (name : string) (o : mkdir_outcome) (n : node) : os_error + node :=
  match name with
  | EmptyString => inl FileNotFoundError
  | String _ _ =>
      match o with
      | Mkdir_fails e => inl e
      | Made false => inr n
      | Made true =>
          match n with
          | Missing | Directory => inr Directory
          | File _ => inl FileExistsError
          end
      end
  end.

(** [with open(path, mode, newline="", encoding="utf-8") as f:] followed by
    the write of one line and [f.flush()]. *)
Definition write_line (m : mode) (line : list ascii) (o : write_outcome) (n : node)
    : (os_error + unit) * node :=
  match n with
  | Directory => (inl IsADirectoryError, Directory)
  | Missing | File _ =>
      let old :=
        match m, n with
        | Append, File c => c
        | _, _ => []
        end in
      match o with
      | Open_fails e => (inl e, n)
      | Write_fails written e => (inl e, File (old ++ take written line))
      | Written => (inr tt, File (old ++ line))
      end
  end.

Definition header : list string := ["id"; "y_true"; "y_pred"; "absolute_error"].

Definition ensure_csv_with_header (path : string) (mk : mkdir_outcome)
    (wr : write_outcome) (n : node) : (os_error + unit) * node :=
  match makedirs (dirname path) mk n with
  | inl e => (inl e, n)
  | inr n1 =>
      if exists_ n1 then (inr tt, n1)
      else write_line Truncate (writerow header) wr n1
  end.

(** The fields of a row as [writerow] gets them: the id is a str, the
    three floats are written as their [repr]. *)
Definition fields_of (r : row) : list string :=
  [row_id r; PyFloat.repr (row_y_true r); PyFloat.repr (row_y_pred r);
   PyFloat.repr (absolute_error r)].

Definition append_metric_row (wr : write_outcome) (r : row) (n : node)
    : (os_error + unit) * node :=
  write_line Append (writerow (fields_of r)) wr n.

(** *** Runs of the two functions *)

Inductive op :=
| Ensure (path : string) (mk : mkdir_outcome) (wr : write_outcome)
| Add (wr : write_outcome) (r : row).

Definition apply (n : node) (o : op) : node :=
  match o with
  | Ensure path mk wr => (ensure_csv_with_header path mk wr n).2
  | Add wr r => (append_metric_row wr r n).2
  end.

Definition content (n : node) : list ascii :=
  match n with
  | File c => c
  | Missing | Directory => []
  end.

(** The lines of a list of rows. *)
Definition lines (rows : list row) : list ascii :=
  flat_map (λ r, writerow (fields_of r)) rows.

(** The text of the file: the lines one after the other, a torn line
    being the characters of it that were written. *)
Definition chars (ln : line) : list ascii :=
  match ln with
  | Whole r => writerow (fields_of r)
  | Torn written r => take written (writerow (fields_of r))
  end.

Definition text (l : list line) : list ascii := flat_map chars l.

(** The way the write ends on the file for a way the append ends in a
    callback, [e] being the error raised. *)
Definition outcome_of (o : sink_outcome) (e : os_error) : write_outcome :=
  match o with
  | Appends => Written
  | Open_raises => Open_fails e
  | Write_raises written => Write_fails written e
  end.

End Disk.

(** ** The two services upstream: [features.py] and [model.py]

    The generator publishes, for one sample, a features message and a truth
    message with the same id; the predictor answers each features message
    with a prediction under that id. A published document reaches the
    consumer of its queue as the document itself: [json.loads] undoes
    [json.dumps] on documents made of dicts with str keys, lists, strs and
    numbers. *)

Module Pipeline.

(** What a service does on its channel: a message that it gets to the
    broker, a [basic_ack] that returns, one that raises, a [basic_nack]. *)
Inductive wire :=
| Publish (routing_key : string) (doc : pyval)
| Ack (delivery_tag : Z)
| Ack_raises (delivery_tag : Z)
| Nack (delivery_tag : Z) (requeue : bool).

(** How a [basic_publish] ends: it returns, the message being with the
    broker; or it raises, the message having got to the broker before
    that ([sent]) or not. *)
Inductive publish_outcome :=
| Publishes
| Publish_raises (sent : bool).

(** *** [features.py]: one turn of the loop *)

Definition message_features (message_id : float) (x : list float) : pyval :=
  VDict [("id", VFloat message_id); ("body", VList (List.map VFloat x))].

Definition message_y_true (message_id : float) (y : float) : pyval :=
  VDict [("id", VFloat message_id); ("body", VFloat y)].

(** [message_id] is [datetime.timestamp(datetime.now())], [x] is
    [X[idx].tolist()] and [y] is [float(y[idx])]; both [basic_publish]
    return (when one raises, nothing handles it and the loop ends). *)
Definition turn (features_queue y_true_queue : string) (message_id : float)
    (x : list float) (y : float) : list wire :=
  [Publish features_queue (message_features message_id x);
   Publish y_true_queue (message_y_true message_id y)].

(** *** [model.py]: [on_message] *)

Section On_message.
(** [float(model.predict(np.array(features, dtype=float).reshape(1, -1))[0])]
    for the model fitted in [main], or the exception numpy raises. *)
Variable predict : pyval → exn + float.
Variable y_pred_queue : string.

(** The [try] block up to the document to publish. *)
Definition prediction (b : body) : exn + pyval :=
  match b with
  | Malformed => inl JSONDecodeError
  | Document message =>
      match py_getitem message "id" with
      | inl e => inl e
      | inr message_id =>
          match py_getitem message "body" with
          | inl e => inl e
          | inr features =>
              match predict features with
              | inl e => inl e
              | inr y_pred => inr (VDict [("id", message_id); ("body", VFloat y_pred)])
              end
          end
      end
  end.

(** The last statement of the [try] block and what follows it:
    [basic_ack] returns, or it raises and the handler calls [basic_nack]. *)
Definition acknowledge (ack_ok : bool) (delivery_tag : Z) : list wire :=
  if ack_ok then [Ack delivery_tag]
  else [Ack_raises delivery_tag; Nack delivery_tag true].

(** [basic_nack], the one statement of the handler, is taken to return, as
    in the metric service. *)
Definition on_message (publish : publish_outcome) (ack_ok : bool) (delivery_tag : Z)
    (b : body) : list wire :=
  match prediction b with
  | inl _ => [Nack delivery_tag true]
  | inr message_y_pred =>
      match publish with
      | Publishes =>
          Publish y_pred_queue message_y_pred :: acknowledge ack_ok delivery_tag
      | Publish_raises sent =>
          (if sent then [Publish y_pred_queue message_y_pred] else [])
            ++ [Nack delivery_tag true]
      end
  end.

(** The messages that a run of channel operations gets to the broker. *)
Definition published (ws : list wire) : list (string * pyval) :=
  flat_map (λ w, match w with Publish q doc => [(q, doc)] | _ => [] end) ws.

(** The calls that answer a delivery. *)
Definition replies (ws : list wire) : list wire :=
  flat_map (λ w, match w with Publish _ _ => [] | _ => [w] end) ws.

End On_message.

End Pipeline.

(** ** Sample brokers and a sample model *)

(** A broker that refuses the first two passes and accepts the third. *)
Definition third_time (host : string) (port : Z) (n : nat) : Retry.dial nat :=
  if (n <? 2)%nat then Retry.Refused "refused" else Retry.Connected n.

(** A broker that is never there. *)
Definition never (host : string) (port : Z) (n : nat) : Retry.dial nat :=
  Retry.Refused "refused".

(** A [time.sleep] that does no more than look at its argument: an
    [OverflowError] for a length whose nanoseconds do not fit 64 bits, a
    [ValueError] for a negative one, else it returns. *)
Definition checked_sleep (seconds : Z) (n : nat) : option exn :=
  if (seconds * 10 ^ 9 <? - 2 ^ 63) || (2 ^ 63 <=? seconds * 10 ^ 9) then Some OverflowError
  else if seconds <? 0 then Some ValueError
  else None.

(** A model that adds up its features. *)
Definition total (features : pyval) : exn + float :=
  match features with
  | VList xs =>
      foldr (λ v acc, match acc, v with
                      | inr t, VFloat x => inr (PrimFloat.add x t)
                      | inr _, _ => inl TypeError
                      | inl e, _ => inl e
                      end) (inr 0%float) xs
  | _ => inl ValueError
  end.

(** * Properties *)

(** ** The built-ins at sample inputs *)

Example repr_samples :
  PyFloat.repr 0x1.09a0666666666p+14 = "17000.1"
  ∧ PyFloat.repr 5 = "5.0"
  ∧ PyFloat.repr 0x1.999999999999ap-4 = "0.1"
  ∧ PyFloat.repr 0x1.954fc4007e6b4p+30 = "1700000000.123456"
  ∧ PyFloat.repr 1e16 = "1e+16"
  ∧ PyFloat.repr 0x1.4f8b588e368f1p-17 = "1e-05"
  ∧ PyFloat.repr 0x0.0000000000001p-1022 = "5e-324"
  ∧ PyFloat.repr (-0) = "-0.0"
  ∧ PyFloat.repr infinity = "inf"
  ∧ PyFloat.repr nan = "nan".
Proof. by vm_compute. Qed.

Example float_of_int_samples :
  PyFloat.of_int 142 = Some 142%float
  ∧ PyFloat.of_int (2 ^ 53 + 1) = Some 9007199254740992%float
  ∧ PyFloat.of_int (2 ^ 1024) = None.
Proof. by vm_compute. Qed.

Example gt_int_samples :
  PyFloat.gt_int 601 600 = true
  ∧ PyFloat.gt_int 600 600 = false
  ∧ PyFloat.gt_int 0x1.2c00000000001p+9 600 = true
  ∧ PyFloat.gt_int 9007199254740992 (2 ^ 53 + 1) = false
  ∧ PyFloat.gt_int nan 0 = false
  ∧ PyFloat.gt_int infinity (10 ^ 400) = true.
Proof. by vm_compute. Qed.

Example float_of_str_samples :
  Ascii_runtime.float_of "3.5" = Some 3.5%float
  ∧ Ascii_runtime.float_of " 1_000.5e-1 " = Some 0x1.9033333333333p+6%float
  ∧ Ascii_runtime.float_of "-Infinity" = Some neg_infinity
  ∧ Ascii_runtime.float_of "1e999" = Some infinity
  ∧ Ascii_runtime.float_of "abc" = None
  ∧ Ascii_runtime.float_of "1_" = None
  ∧ Ascii_runtime.float_of "1e" = None
  ∧ Ascii_runtime.float_of "0x10" = None
  ∧ Ascii_runtime.float_of EmptyString = None.
Proof. by vm_compute. Qed.

Example str_samples :
  @py_str ascii_runtime (VInt (-12)) = "-12"
  ∧ @py_str ascii_runtime (VStr "id-7") = "id-7"
  ∧ @py_str ascii_runtime (VBool true) = "True"
  ∧ @py_str ascii_runtime VNone = "None"
  ∧ @py_str ascii_runtime (VList [VInt 1; VFloat 2.5; VStr "a"]) = "[1, 2.5, 'a']"
  ∧ @py_str ascii_runtime (VDict [("k", VList []); ("it's", VNone)])
    = "{'k': [], " +:+ String Ascii_runtime.quotation "it's"
        +:+ String Ascii_runtime.quotation ": None}".
Proof. by vm_compute. Qed.

Section Engine.
Context {rt : PyRuntime}.
Variable ttl : Z.

(** ** Basic facts *)

Lemma state_eq (s1 s2 : state) :
  buffer s1 = buffer s2 → buffer_ts s1 = buffer_ts s2 →
  metric_log s1 = metric_log s2 → trace s1 = trace s2 → s1 = s2.
Proof. destruct s1, s2; simpl; congruence. Qed.

Lemma stored_set_same sd v e : stored sd (set_side sd v e) = Some v.
Proof. by destruct sd. Qed.

Lemma stored_set_other sd v e : stored (other sd) (set_side sd v e) = stored (other sd) e.
Proof. by destruct sd. Qed.

Lemma other_involutive sd : other (other sd) = sd.
Proof. by destruct sd. Qed.

Lemma upsert_spec now message_id sd v s :
  upsert now message_id sd v s = (Return tt, upserted now message_id sd v s).
Proof.
  unfold upsert, upserted, bind, get, modify, ret; simpl.
  destruct (buffer s !! message_id) as [e|] eqn:Hl.
  - rewrite decide_True by eauto. simpl. by rewrite Hl.
  - rewrite decide_False by (intros [? ?]; congruence). simpl.
    rewrite lookup_insert_eq. simpl. f_equal.
    apply state_eq; simpl; try done. by rewrite insert_insert_eq.
Qed.

Lemma upserted_lookup now message_id sd v s :
  buffer (upserted now message_id sd v s) !! message_id
  = Some (set_side sd v (default (Entry None None) (buffer s !! message_id))).
Proof.
  unfold upserted. destruct (buffer s !! message_id); simpl; by rewrite lookup_insert_eq.
Qed.

Lemma upserted_lookup_ne now message_id sd v s k :
  k ≠ message_id →
  buffer (upserted now message_id sd v s) !! k = buffer s !! k
  ∧ buffer_ts (upserted now message_id sd v s) !! k = buffer_ts s !! k.
Proof.
  intros Hne. unfold upserted.
  destruct (buffer s !! message_id); simpl; by rewrite ?lookup_insert_ne.
Qed.

Lemma upserted_log now message_id sd v s :
  metric_log (upserted now message_id sd v s) = metric_log s.
Proof. unfold upserted. by destruct (buffer s !! message_id). Qed.

Lemma upserted_trace now message_id sd v s :
  trace (upserted now message_id sd v s) = trace s ++ [Upserted message_id sd v].
Proof. unfold upserted. by destruct (buffer s !! message_id). Qed.

Lemma held_upserted_same now message_id sd v s :
  held (upserted now message_id sd v s) message_id sd = Some v.
Proof. unfold held. rewrite upserted_lookup. simpl. apply stored_set_same. Qed.

Lemma held_upserted_other now message_id sd v s :
  held (upserted now message_id sd v s) message_id (other sd) = held s message_id (other sd).
Proof.
  unfold held. rewrite upserted_lookup. simpl. rewrite stored_set_other.
  destruct (buffer s !! message_id); simpl; [done | by destruct sd].
Qed.

(** [try_finalize], case by case. *)
Lemma held_both s message_id sd v vo :
  held s message_id sd = Some v → held s message_id (other sd) = Some vo →
  ∃ e, buffer s !! message_id = Some e
       ∧ y_true e = Some (match sd with Truth => v | Predicted => vo end)
       ∧ y_pred e = Some (match sd with Truth => vo | Predicted => v end).
Proof.
  unfold held. destruct (buffer s !! message_id) as [e|]; simpl; [|done].
  intros H1 H2. exists e. by destruct sd; simpl in *.
Qed.

Lemma try_finalize_idle ok message_id s :
  held s message_id Truth = None ∨ held s message_id Predicted = None →
  try_finalize ok message_id s = (Return tt, s).
Proof.
  unfold held, try_finalize, bind, get, ret. simpl.
  destruct (buffer s !! message_id) as [[[yt|] [yp|]]|]; simpl; try done.
  by intros [?|?].
Qed.

Lemma try_finalize_join message_id sd v vo s :
  held s message_id sd = Some v → held s message_id (other sd) = Some vo →
  try_finalize Appends message_id s
  = (Return tt, joined message_id (join_row message_id sd v vo) s).
Proof.
  intros H1 H2. destruct (held_both _ _ _ _ _ H1 H2) as (e & He & Ht & Hp).
  unfold try_finalize, bind, get, append_metric_row, modify. simpl.
  rewrite He, Ht, Hp. simpl. f_equal.
  destruct sd; apply state_eq; simpl; try done; by rewrite <- app_assoc.
Qed.

Lemma littered_nothing r s : littered Open_raises r s = s.
Proof. destruct s. unfold littered. simpl. by rewrite app_nil_r. Qed.

Lemma append_ok_true w : append_ok w = true → sink w = Appends.
Proof. unfold append_ok. by destruct (sink w). Qed.

Lemma append_ok_false o w :
  sink w = o → append_ok w = false → o ≠ Appends.
Proof. unfold append_ok. intros <- H Heq. by rewrite Heq in H. Qed.

Lemma try_finalize_io_error o message_id sd v vo s :
  o ≠ Appends →
  held s message_id sd = Some v → held s message_id (other sd) = Some vo →
  try_finalize o message_id s
  = (Raise OSError, littered o (join_row message_id sd v vo) s).
Proof.
  intros Ho H1 H2. destruct (held_both _ _ _ _ _ H1 H2) as (e & He & Ht & Hp).
  unfold try_finalize, bind, get, append_metric_row, raise, modify. simpl.
  rewrite He, Ht, Hp.
  destruct o as [| |written]; [done| |]; simpl.
  - by rewrite littered_nothing.
  - by destruct sd.
Qed.

(** [cleanup_old_records] *)
Lemma elem_of_overdue now s k ts :
  (k, ts) ∈ overdue ttl now s ↔ buffer_ts s !! k = Some ts ∧ expired ttl now ts = true.
Proof.
  unfold overdue. rewrite list_elem_of_filter, elem_of_map_to_list. simpl. tauto.
Qed.

Lemma elem_of_overdue_keys now s k :
  k ∈ (overdue ttl now s).*1 ↔ stale ttl now (buffer_ts s) k = true.
Proof.
  unfold stale. rewrite list_elem_of_fmap. split.
  - intros ([k' ts] & -> & Hin). apply elem_of_overdue in Hin as [Hk He].
    simpl. by rewrite Hk.
  - destruct (buffer_ts s !! k) as [ts|] eqn:Hk; [|done].
    intros He. exists (k, ts). split; [done|]. by apply elem_of_overdue.
Qed.

Lemma overdue_keys_NoDup now s : NoDup (overdue ttl now s).*1.
Proof.
  eapply sublist_NoDup; [apply (NoDup_fst_map_to_list (buffer_ts s))|].
  unfold overdue. apply fmap_sublist, sublist_filter.
Qed.

Lemma keep_lookup {V} now times (m : gmap string V) k :
  keep ttl now times m !! k = if stale ttl now times k then None else m !! k.
Proof.
  unfold keep. rewrite map_lookup_filter. simpl.
  destruct (m !! k) as [x|]; simpl; [|by destruct (stale _ _ _ _)].
  destruct (stale ttl now times k); by simplify_option_eq.
Qed.

Lemma delete_all_spec l s :
  NoDup l → (∀ k, k ∈ l → is_Some (buffer_ts s !! k)) →
  ∃ s', delete_all l s = (Return tt, s')
        ∧ (∀ k, buffer s' !! k = if decide (k ∈ l) then None else buffer s !! k)
        ∧ (∀ k, buffer_ts s' !! k = if decide (k ∈ l) then None else buffer_ts s !! k)
        ∧ metric_log s' = metric_log s ∧ trace s' = trace s.
Proof.
  intros Hnd. revert s. induction Hnd as [|x l Hx Hnd IH]; intros s Hin.
  - exists s. repeat split; intros; try done;
      rewrite decide_False; auto; apply not_elem_of_nil.
  - destruct (Hin x) as [ts Hts]; [left|].
    set (s1 := set_buffer_ts (delete x) (set_buffer (delete x) s)).
    destruct (IH s1) as (s' & Hrun & Hb & Ht & Hl & Htr).
    { intros k Hk. simpl. rewrite lookup_delete_ne; [|by intros ->].
      apply Hin. by right. }
    exists s'. split.
    { simpl. cbv beta iota delta [bind modify del_buffer_ts get]. simpl.
      rewrite Hts. fold s1. by rewrite Hrun. }
    split; [|split; [|done]]; intros k; [rewrite Hb | rewrite Ht]; simpl;
      destruct (decide (k = x)) as [->|Hne].
    + rewrite lookup_delete_eq, (decide_True (P := x ∈ x :: l)) by left.
      by destruct (decide (x ∈ l)).
    + rewrite lookup_delete_ne by done.
      destruct (decide (k ∈ l)) as [Hk|Hk].
      * rewrite decide_True; [done | by right].
      * rewrite decide_False; [done | by apply not_elem_of_cons].
    + rewrite lookup_delete_eq, (decide_True (P := x ∈ x :: l)) by left.
      by destruct (decide (x ∈ l)).
    + rewrite lookup_delete_ne by done.
      destruct (decide (k ∈ l)) as [Hk|Hk].
      * rewrite decide_True; [done | by right].
      * rewrite decide_False; [done | by apply not_elem_of_cons].
Qed.

Lemma cleanup_spec now s :
  cleanup_old_records ttl now s = (Return tt, swept ttl now s).
Proof.
  destruct (delete_all_spec (overdue ttl now s).*1 s) as (s' & Hrun & Hb & Ht & Hl & Htr).
  { apply overdue_keys_NoDup. }
  { intros k Hk. apply elem_of_overdue_keys in Hk. unfold stale in Hk.
    destruct (buffer_ts s !! k); [eauto | done]. }
  unfold cleanup_old_records, bind, get, modify. simpl. rewrite Hrun. f_equal.
  apply state_eq; simpl; [| |done|by rewrite Htr].
  - apply map_eq. intros k. rewrite Hb, keep_lookup.
    destruct (decide _) as [Hk|Hk]; apply elem_of_overdue_keys in Hk || 
      (rewrite elem_of_overdue_keys in Hk; apply not_true_is_false in Hk); by rewrite Hk.
  - apply map_eq. intros k. rewrite Ht, keep_lookup.
    destruct (decide _) as [Hk|Hk]; apply elem_of_overdue_keys in Hk || 
      (rewrite elem_of_overdue_keys in Hk; apply not_true_is_false in Hk); by rewrite Hk.
Qed.

(** ** One delivery in closed form *)

Lemma callback_spec d s :
  callback ttl d s =
  match decode (payload d) with
  | inl _ => (Return tt, record (Nacked (tag d) true) s)
  | inr (message_id, v) =>
      let s1 := upserted (time_upsert (world d)) message_id (queue d) v s in
      match try_finalize (sink (world d)) message_id s1 with
      | (Return _, s2) =>
          (Return tt,
           answered (world d) (tag d) (swept ttl (time_sweep (world d)) s2))
      | (Raise _, s2) => (Return tt, record (Nacked (tag d) true) s2)
      end
  end.
Proof.
  destruct d as [sd w tg b]. unfold callback, decode. simpl.
  destruct sd; unfold on_y_true, on_y_pred, try_except;
    cbv beta iota delta [bind json_loads lift ret raise];
    (destruct b as [|msg]; [done|]);
    (destruct (py_getitem msg "id") as [?|id_field]; [done|]);
    (destruct (py_getitem msg "body") as [?|body_field]; [done|]);
    (destruct (py_float body_field) as [?|val]; [done|]);
    rewrite upsert_spec;
    (destruct (try_finalize _ _ _) as [[[]|?] s2]; [|done]);
    rewrite cleanup_spec; unfold basic_ack, basic_nack, answered, answer;
    destruct (ack_ok w); cbv beta iota delta [bind modify raise record]; simpl;
    f_equal; apply state_eq; simpl; try done; by rewrite <- app_assoc.
Qed.

Lemma callback_returns d s : ∃ s', callback ttl d s = (Return tt, s').
Proof.
  rewrite callback_spec. destruct (decode _) as [?|[k v]]; [eauto|].
  simpl. destruct (try_finalize _ _ _) as [[?|?] ?]; eauto.
Qed.

Lemma consume_undecodable d s e :
  decode (payload d) = inl e → consume ttl s d = record (Nacked (tag d) true) s.
Proof. intros H. unfold consume. by rewrite callback_spec, H. Qed.

Lemma consume_wait d s message_id v :
  decode (payload d) = inr (message_id, v) →
  held s message_id (other (queue d)) = None →
  consume ttl s d =
  answered (world d) (tag d)
    (swept ttl (time_sweep (world d))
       (upserted (time_upsert (world d)) message_id (queue d) v s)).
Proof.
  intros H Hh. unfold consume. rewrite callback_spec, H. simpl.
  rewrite try_finalize_idle; [done|].
  pose proof (held_upserted_other (time_upsert (world d)) message_id (queue d) v s) as Ho.
  rewrite Hh in Ho. destruct (queue d); simpl in Ho; auto.
Qed.

Lemma consume_join d s message_id v vo :
  decode (payload d) = inr (message_id, v) →
  held s message_id (other (queue d)) = Some vo →
  append_ok (world d) = true →
  consume ttl s d =
  answered (world d) (tag d)
    (swept ttl (time_sweep (world d))
       (joined message_id (join_row message_id (queue d) v vo)
          (upserted (time_upsert (world d)) message_id (queue d) v s))).
Proof.
  intros H Hh Hok. unfold consume. rewrite callback_spec, H. simpl.
  apply append_ok_true in Hok. rewrite Hok.
  rewrite (try_finalize_join message_id (queue d) v vo); [done| |].
  - apply held_upserted_same.
  - by rewrite held_upserted_other.
Qed.

Lemma consume_io_error d s message_id v vo :
  decode (payload d) = inr (message_id, v) →
  held s message_id (other (queue d)) = Some vo →
  append_ok (world d) = false →
  consume ttl s d =
  record (Nacked (tag d) true)
    (littered (sink (world d)) (join_row message_id (queue d) v vo)
       (upserted (time_upsert (world d)) message_id (queue d) v s)).
Proof.
  intros H Hh Hok. unfold consume. rewrite callback_spec, H. simpl.
  rewrite (try_finalize_io_error _ message_id (queue d) v vo); [done| | |].
  - by apply (append_ok_false _ (world d)).
  - apply held_upserted_same.
  - by rewrite held_upserted_other.
Qed.

(** ** Frame facts *)

Lemma row_id_join_row k sd v vo : row_id (join_row k sd v vo) = k.
Proof. by destruct sd. Qed.

Lemma rows_of_snoc_ne k l (ln : line) :
  row_id (row_of ln) ≠ k → rows_of k (l ++ [ln]) = rows_of k l.
Proof.
  intros Hne. unfold rows_of. rewrite filter_app, filter_cons_False by done.
  by rewrite filter_nil, app_nil_r.
Qed.

Lemma rows_of_snoc k l (ln : line) :
  row_id (row_of ln) = k → rows_of k (l ++ [ln]) = rows_of k l ++ [ln].
Proof.
  intros He. unfold rows_of. rewrite filter_app, filter_cons_True by done.
  by rewrite filter_nil.
Qed.

Lemma rows_of_debris_ne k l o r :
  row_id r ≠ k → rows_of k (l ++ debris o r) = rows_of k l.
Proof.
  intros Hne. destruct o; simpl; rewrite ?app_nil_r; [done..|].
  by apply rows_of_snoc_ne.
Qed.

Lemma stale_fresh now times k ts :
  times !! k = Some ts → stale ttl now times k = expired ttl now ts.
Proof. unfold stale. by intros ->. Qed.

Lemma decode_error_iff b : decode_error b ↔ ∃ e, decode b = inl e.
Proof.
  split.
  - intros H. destruct H as [|msg e H|msg e H|msg bf e H1 H2]; simpl.
    + eauto.
    + rewrite H. eauto.
    + destruct (py_getitem msg "id"); [eauto|]. rewrite H. eauto.
    + destruct (py_getitem msg "id"); [eauto|]. rewrite H1, H2. eauto.
  - intros [e H]. destruct b as [|msg]; [constructor|]. simpl in H.
    destruct (py_getitem msg "id") as [e1|idf] eqn:H1; [by eapply no_id|].
    destruct (py_getitem msg "body") as [e2|bf] eqn:H2; [by eapply no_body|].
    destruct (py_float bf) as [e3|v] eqn:H3; [by eapply not_a_number|done].
Qed.

(** ** An entry that waits for its other side *)

Lemma waits_held s k sd v ts :
  waits s k sd v ts → held s k sd = Some v ∧ held s k (other sd) = None.
Proof. intros [Hb _]. unfold held. rewrite Hb. by destruct sd. Qed.

Lemma set_side_twice sd v v' e : set_side sd v' (set_side sd v e) = set_side sd v' e.
Proof. by destruct sd. Qed.

Lemma feeds_cases d k sd :
  ¬ feeds d k (other sd) →
  (∃ e, decode (payload d) = inl e)
  ∨ (∃ v, decode (payload d) = inr (k, v) ∧ queue d = sd)
  ∨ (∃ k' v, decode (payload d) = inr (k', v) ∧ k' ≠ k).
Proof.
  intros Hf. unfold feeds, key_of in Hf.
  destruct (decode (payload d)) as [e|[k' v]] eqn:Hd; [eauto|].
  destruct (decide (k' = k)) as [->|Hne]; [|eauto 6].
  right; left. exists v. split; [done|].
  destruct (queue d), sd; try done; exfalso; by apply Hf.
Qed.

Lemma refresh_same d k sd v v' :
  decode (payload d) = inr (k, v') → queue d = sd → refresh k sd v d = v'.
Proof. intros Hd Hq. unfold refresh. rewrite Hd. by rewrite bool_decide_eq_true_2. Qed.

Lemma refresh_foreign d k sd v :
  key_of d ≠ Some k → refresh k sd v d = v.
Proof.
  unfold key_of, refresh. destruct (decode (payload d)) as [e|[k' v']]; [done|].
  intros Hne. rewrite bool_decide_eq_false_2; [done|]. intros [-> _]. by apply Hne.
Qed.

Lemma consume_foreign s d k k' v :
  decode (payload d) = inr (k', v) → k' ≠ k →
  rows_of k (metric_log (consume ttl s d)) = rows_of k (metric_log s)
  ∧ ((buffer (consume ttl s d) !! k = buffer s !! k
      ∧ buffer_ts (consume ttl s d) !! k = buffer_ts s !! k)
     ∨ (stale ttl (time_sweep (world d)) (buffer_ts s) k = true
        ∧ buffer (consume ttl s d) !! k = None
        ∧ buffer_ts (consume ttl s d) !! k = None)).
Proof.
  intros Hd Hne.
  pose proof (upserted_lookup_ne (time_upsert (world d)) k' (queue d) v s k
                (not_eq_sym Hne)) as [Hub Hut].
  destruct (held s k' (other (queue d))) as [vo|] eqn:Hh;
    [destruct (append_ok (world d)) eqn:Hok|].
  - rewrite (consume_join _ _ _ _ _ Hd Hh Hok). simpl. split.
    + rewrite upserted_log. apply rows_of_snoc_ne. simpl. by rewrite row_id_join_row.
    + rewrite !keep_lookup. unfold stale. simpl.
      rewrite !lookup_delete_ne by done. rewrite Hub, Hut.
      destruct (buffer_ts s !! k) as [ts|]; [|by left].
      destruct (expired ttl _ ts); [by right | by left].
  - rewrite (consume_io_error _ _ _ _ _ Hd Hh Hok). simpl.
    rewrite upserted_log, Hub, Hut. split; [|by left].
    apply rows_of_debris_ne. by rewrite row_id_join_row.
  - rewrite (consume_wait _ _ _ _ Hd Hh). simpl. split.
    + by rewrite upserted_log.
    + rewrite !keep_lookup. unfold stale. rewrite Hub, Hut.
      destruct (buffer_ts s !! k) as [ts|]; [|by left].
      destruct (expired ttl _ ts); [by right | by left].
Qed.

Lemma consume_waits s d k sd v ts :
  waits s k sd v ts → ¬ feeds d k (other sd) →
  expired ttl (time_sweep (world d)) ts = false →
  waits (consume ttl s d) k sd (refresh k sd v d) ts
  ∧ rows_of k (metric_log (consume ttl s d)) = rows_of k (metric_log s).
Proof.
  intros Hw Hf Hexp. pose proof Hw as [Hb Ht].
  destruct (feeds_cases _ _ _ Hf) as [[e Hd]|[(v' & Hd & Hq)|(k' & v' & Hd & Hne)]].
  - rewrite (consume_undecodable _ _ _ Hd). unfold refresh. by rewrite Hd.
  - rewrite (refresh_same _ _ _ _ _ Hd Hq).
    apply waits_held in Hw as [_ Hho]. rewrite <- Hq in Hho.
    rewrite (consume_wait _ _ _ _ Hd Hho). unfold waits. simpl.
    rewrite !keep_lookup, upserted_log.
    assert (buffer_ts (upserted (time_upsert (world d)) k (queue d) v' s) !! k = Some ts)
      as Hts by (unfold upserted; by rewrite Hb).
    rewrite (stale_fresh _ _ _ _ Hts), Hexp, Hts, upserted_lookup, Hb. simpl.
    by rewrite Hq, set_side_twice.
  - rewrite refresh_foreign by (unfold key_of; rewrite Hd; congruence).
    destruct (consume_foreign s d k k' v' Hd Hne) as [Hrows [[Hb' Ht']|(Hst & _)]].
    + unfold waits. by rewrite Hb', Ht'.
    + rewrite (stale_fresh _ _ _ _ Ht) in Hst. congruence.
Qed.

Lemma consume_first s d k v :
  buffer s !! k = None → decode (payload d) = inr (k, v) →
  expired ttl (time_sweep (world d)) (time_upsert (world d)) = false →
  waits (consume ttl s d) k (queue d) v (time_upsert (world d))
  ∧ metric_log (consume ttl s d) = metric_log s.
Proof.
  intros Hb Hd Hexp.
  assert (held s k (other (queue d)) = None) as Hh by (unfold held; by rewrite Hb).
  rewrite (consume_wait _ _ _ _ Hd Hh). unfold waits. simpl.
  rewrite !keep_lookup, upserted_log.
  assert (buffer_ts (upserted (time_upsert (world d)) k (queue d) v s) !! k
          = Some (time_upsert (world d))) as Hts.
  { unfold upserted. rewrite Hb. simpl. apply lookup_insert_eq. }
  by rewrite (stale_fresh _ _ _ _ Hts), Hexp, Hts, upserted_lookup, Hb.
Qed.

Lemma consume_completes s d k sd v ts v2 :
  waits s k sd v ts → decode (payload d) = inr (k, v2) → queue d = other sd →
  append_ok (world d) = true →
  metric_log (consume ttl s d) = metric_log s ++ [Whole (join_row k (other sd) v2 v)]
  ∧ buffer (consume ttl s d) !! k = None
  ∧ buffer_ts (consume ttl s d) !! k = None
  ∧ ∃ deleted,
      trace (consume ttl s d)
      = trace s ++ [Upserted k (other sd) v2; Appended (join_row k (other sd) v2 v);
                    Finalized k; Swept (time_sweep (world d)) deleted]
          ++ answer (world d) (tag d).
Proof.
  intros Hw Hd Hq Hok. apply waits_held in Hw as [Hh _].
  rewrite <- (other_involutive sd), <- Hq in Hh.
  rewrite (consume_join _ _ _ _ _ Hd Hh Hok), Hq. simpl.
  rewrite upserted_log, upserted_trace, !keep_lookup, !lookup_delete_eq.
  repeat split; try by destruct (stale _ _ _ _).
  eexists. rewrite <- !app_assoc. simpl. reflexivity.
Qed.

Lemma run_snoc ds d s : run ttl (ds ++ [d]) s = consume ttl (run ttl ds s) d.
Proof. unfold run. by rewrite foldl_app. Qed.

Lemma run_waits ds s k sd v ts :
  waits s k sd v ts →
  Forall (λ d, ¬ feeds d k (other sd)
               ∧ expired ttl (time_sweep (world d)) ts = false) ds →
  waits (run ttl ds s) k sd (latest k sd ds v) ts
  ∧ rows_of k (metric_log (run ttl ds s)) = rows_of k (metric_log s).
Proof.
  intros Hw Hall. revert s v Hw.
  induction Hall as [|d ds [Hf Hexp] _ IH]; intros s v Hw; [done|].
  destruct (consume_waits s d k sd v ts Hw Hf Hexp) as [Hw' Hrows].
  destruct (IH _ _ Hw') as [Hw'' Hrows'].
  simpl. split; [done|]. by rewrite <- Hrows.
Qed.

Lemma join_row_fields k sd v vo :
  let r := join_row k sd v vo in
  row_id r = k
  ∧ row_y_true r = match sd with Truth => v | Predicted => vo end
  ∧ row_y_pred r = match sd with Truth => vo | Predicted => v end
  ∧ absolute_error r = PrimFloat.abs (PrimFloat.sub (row_y_true r) (row_y_pred r)).
Proof. by destruct sd. Qed.

(** ** Join completeness *)

Lemma run_join s d1 mid d2 k v1 v2 :
  buffer s !! k = None →
  decode (payload d1) = inr (k, v1) →
  decode (payload d2) = inr (k, v2) →
  queue d2 = other (queue d1) →
  Forall (λ d, ¬ feeds d k (queue d2)) mid →
  Forall (λ d, expired ttl (time_sweep (world d)) (time_upsert (world d1)) = false)
         (d1 :: mid) →
  append_ok (world d2) = true →
  let before := run ttl (d1 :: mid) s in
  let after := run ttl (d1 :: mid ++ [d2]) s in
  let r := join_row k (queue d2) v2 (latest k (queue d1) mid v1) in
  after = consume ttl before d2
  ∧ waits before k (queue d1) (latest k (queue d1) mid v1) (time_upsert (world d1))
  ∧ metric_log after = metric_log before ++ [Whole r]
  ∧ rows_of k (metric_log after) = rows_of k (metric_log s) ++ [Whole r]
  ∧ buffer after !! k = None
  ∧ buffer_ts after !! k = None
  ∧ ∃ deleted,
      trace after
      = trace before ++ [Upserted k (queue d2) v2; Appended r; Finalized k;
                         Swept (time_sweep (world d2)) deleted]
          ++ answer (world d2) (tag d2).
Proof.
  intros Hfresh Hd1 Hd2 Hq Hmid Hexp Hok before after r.
  apply Forall_cons in Hexp as [Hexp1 Hexp].
  destruct (consume_first s d1 k v1 Hfresh Hd1 Hexp1) as [Hw Hlog1].
  destruct (run_waits mid (consume ttl s d1) k (queue d1) v1 (time_upsert (world d1)) Hw)
    as [Hw' Hrows].
  { apply Forall_forall. intros d Hin.
    rewrite Forall_forall in Hmid, Hexp. rewrite <- Hq. auto. }
  assert (before = run ttl mid (consume ttl s d1)) as Hbefore by done.
  assert (after = consume ttl before d2) as Hafter.
  { unfold after, before. by rewrite app_comm_cons, run_snoc. }
  destruct (consume_completes _ d2 k (queue d1) _ _ v2 Hw' Hd2 Hq Hok)
    as (Hlog & Hb & Ht & deleted & Htr).
  rewrite <- Hq, <- Hbefore in Hlog, Htr. rewrite <- Hbefore in Hb, Ht, Hw'.
  rewrite <- Hafter in Hlog, Hb, Ht, Htr. fold r in Hlog, Htr.
  split; [done|]. split; [done|]. split; [done|]. split.
  { rewrite Hlog, rows_of_snoc by apply row_id_join_row.
    f_equal. by rewrite Hbefore, Hrows, Hlog1. }
  split; [done|]. split; [done|]. by exists deleted.
Qed.


(** C1. A delivery that brings one side of an identifier whose entry holds
    the other side, the append going through, adds exactly one row: the key,
    the two stored values each on its side, and the absolute value of their
    difference; the deletion of the entry follows the append directly.
    In a run: an identifier with no entry receives one side ([d1]) and later the
    other ([d2]), deliveries for other identifiers ([mid]) coming in between;
    no sweep up to the second arrival finds the entry older than the TTL, and
    the append of the row goes through. Then handling [d2] appends one row
    to the file, the only one of the run for this identifier: it carries the
    key, the two delivered values each on its side, and the absolute value
    of their difference. The deletion of the entry follows the append
    directly, and the entry and its first-seen time are gone afterwards;
    the sweep and the answer to the broker end the delivery.
    In Scenario A (TTL 600, truth 142.0 at 0, predicted 138.5 at 5) the
    file holds the single row ("17000.1", 142.0, 138.5, 3.5). *)
Theorem join_completeness :
  (∀ s d k v vo,
     decode (payload d) = inr (k, v) →
     held s k (other (queue d)) = Some vo →
     append_ok (world d) = true →
     let r := join_row k (queue d) v vo in
     metric_log (consume ttl s d) = metric_log s ++ [Whole r]
     ∧ buffer (consume ttl s d) !! k = None
     ∧ buffer_ts (consume ttl s d) !! k = None
     ∧ ∃ deleted,
         trace (consume ttl s d)
         = trace s ++ [Upserted k (queue d) v; Appended r; Finalized k;
                       Swept (time_sweep (world d)) deleted]
             ++ answer (world d) (tag d))
  ∧ (∀ s d1 mid d2 k v1 v2,
       buffer s !! k = None →
       decode (payload d1) = inr (k, v1) →
       decode (payload d2) = inr (k, v2) →
       queue d2 = other (queue d1) →
       Forall (λ d, key_of d ≠ Some k) mid →
       Forall (λ d, expired ttl (time_sweep (world d)) (time_upsert (world d1)) = false)
              (d1 :: mid) →
       append_ok (world d2) = true →
       let before := run ttl (d1 :: mid) s in
       let after := run ttl (d1 :: mid ++ [d2]) s in
       let r := join_row k (queue d2) v2 v1 in
       after = consume ttl before d2
       ∧ metric_log after = metric_log before ++ [Whole r]
       ∧ rows_of k (metric_log after) = rows_of k (metric_log s) ++ [Whole r]
       ∧ row_id r = k
       ∧ row_y_true r = match queue d1 with Truth => v1 | Predicted => v2 end
       ∧ row_y_pred r = match queue d1 with Truth => v2 | Predicted => v1 end
       ∧ absolute_error r = PrimFloat.abs (PrimFloat.sub (row_y_true r) (row_y_pred r))
       ∧ buffer after !! k = None
       ∧ buffer_ts after !! k = None
       ∧ ∃ deleted,
           trace after
           = trace before ++ [Upserted k (queue d2) v2; Appended r; Finalized k;
                              Swept (time_sweep (world d2)) deleted]
               ++ answer (world d2) (tag d2))
  ∧ metric_log (run 600 scenario_A initial) = [Whole (Row "17000.1" 142 138.5 3.5)]
  ∧ buffer (run 600 scenario_A initial) = ∅.
Proof.
  split; [|split; [|by vm_compute]].
  { intros s d k v vo Hd Hh Hok r.
    rewrite (consume_join _ _ _ _ _ Hd Hh Hok). simpl.
    rewrite upserted_log, upserted_trace, !keep_lookup, !lookup_delete_eq.
    repeat split; try by destruct (stale _ _ _ _).
    eexists. rewrite <- !app_assoc. simpl. reflexivity. }
  intros s d1 mid d2 k v1 v2 Hfresh Hd1 Hd2 Hq Hmid Hexp Hok before after r.
  assert (latest k (queue d1) mid v1 = v1) as Hlatest.
  { clear -Hmid. revert v1. induction Hmid as [|d ds Hd _ IH]; intros v1; [done|].
    unfold latest in *. simpl. rewrite refresh_foreign by done. apply IH. }
  destruct (run_join s d1 mid d2 k v1 v2 Hfresh Hd1 Hd2 Hq) as
    (Hafter & _ & Hlog & Hrows & Hb & Ht & Htr); [|done|done|].
  { eapply Forall_impl; [exact Hmid|]. intros d Hd [Hk _]. by apply Hd. }
  rewrite Hlatest in Hlog, Hrows, Htr.
  destruct (join_row_fields k (queue d2) v2 v1) as (Hr1 & Hr2 & Hr3 & Hr4).
  fold r in Hr1, Hr2, Hr3, Hr4.
  repeat (split; [done|]).
  split; [rewrite Hr2, Hq; by destruct (queue d1)|].
  split; [rewrite Hr3, Hq; by destruct (queue d1)|].
  done.
Qed.

(** ** No premature finalize *)

Lemma consume_lacking s d k sd :
  held s k (other sd) = None → ¬ feeds d k (other sd) →
  held (consume ttl s d) k (other sd) = None
  ∧ rows_of k (metric_log (consume ttl s d)) = rows_of k (metric_log s).
Proof.
  intros Hh Hf.
  destruct (feeds_cases _ _ _ Hf) as [[e Hd]|[(v' & Hd & Hq)|(k' & v' & Hd & Hne)]].
  - by rewrite (consume_undecodable _ _ _ Hd).
  - subst sd. rewrite (consume_wait _ _ _ _ Hd Hh). simpl. rewrite upserted_log.
    split; [|done]. unfold held. simpl. rewrite keep_lookup.
    destruct (stale _ _ _ _); [done|].
    pose proof (held_upserted_other (time_upsert (world d)) k (queue d) v' s) as Ho.
    unfold held in Ho, Hh. by rewrite Ho.
  - destruct (consume_foreign s d k k' v' Hd Hne) as [Hrows [[Hb' _]|(_ & Hb' & _)]];
      (split; [|done]); unfold held in *; by rewrite Hb'.
Qed.

(** C5. [try_finalize] changes nothing and raises nothing when the
    identifier has no entry or its entry lacks the truth value or the
    predicted value. Hence, as long as no delivery brings side [other sd] of
    an identifier that lacks it, no run of deliveries, whatever the clock
    readings, adds a row for that identifier to the file. *)
Theorem no_premature_finalize :
  (∀ s k o,
     buffer s !! k = None
     ∨ (∃ e, buffer s !! k = Some e ∧ (y_true e = None ∨ y_pred e = None)) →
     try_finalize o k s = (Return tt, s))
  ∧ (∀ s k sd ds,
       held s k (other sd) = None →
       Forall (λ d, ¬ feeds d k (other sd)) ds →
       rows_of k (metric_log (run ttl ds s)) = rows_of k (metric_log s)
       ∧ held (run ttl ds s) k (other sd) = None).
Proof.
  split.
  - intros s k o H. apply try_finalize_idle. unfold held.
    destruct H as [->|(e & -> & [H|H])]; simpl; auto.
  - intros s k sd ds Hh Hall. revert s Hh.
    induction Hall as [|d ds Hf _ IH]; intros s Hh; [done|].
    destruct (consume_lacking s d k sd Hh Hf) as [Hh' Hrows].
    destruct (IH _ Hh') as [Hrows' Hh'']. simpl. split; [|done].
    by rewrite <- Hrows.
Qed.

(** ** Failures *)

(** C6. A body that does not decode (malformed JSON, no "id", no "body",
    or a "body" that [float] rejects) makes either callback call
    [basic_nack] with [requeue=True] and nothing else: [buffer],
    [buffer_ts] and the file are as before. *)
Theorem decode_failure_requeues s w delivery_tag b :
  decode_error b →
  let s' := record (Nacked delivery_tag true) s in
  on_y_true ttl w delivery_tag b s = (Return tt, s')
  ∧ on_y_pred ttl w delivery_tag b s = (Return tt, s')
  ∧ buffer s' = buffer s
  ∧ buffer_ts s' = buffer_ts s
  ∧ metric_log s' = metric_log s
  ∧ trace s' = trace s ++ [Nacked delivery_tag true].
Proof.
  intros [e He]%decode_error_iff s'. repeat split.
  - change (callback ttl (Delivery Truth w delivery_tag b) s = (Return tt, s')).
    rewrite callback_spec. simpl. by rewrite He.
  - change (callback ttl (Delivery Predicted w delivery_tag b) s = (Return tt, s')).
    rewrite callback_spec. simpl. by rewrite He.
Qed.

(** C8. When the append raises for an identifier whose two sides are set
    once the delivered value is stored, [try_finalize] raises before its
    deletions: the entry stays with both values, its first-seen time stays,
    the file is as before but for what the failed write left of the line
    (nothing when [open] raised), no sweep runs, [basic_ack] is not called
    and the delivery is answered by [basic_nack] with [requeue=True]. *)
Theorem sink_failure_keeps_entry s d k v vo :
  decode (payload d) = inr (k, v) →
  held s k (other (queue d)) = Some vo →
  append_ok (world d) = false →
  let s1 := upserted (time_upsert (world d)) k (queue d) v s in
  let s' := consume ttl s d in
  let r := join_row k (queue d) v vo in
  try_finalize (sink (world d)) k s1 = (Raise OSError, littered (sink (world d)) r s1)
  ∧ callback ttl d s = (Return tt, s')
  ∧ held s' k (queue d) = Some v
  ∧ held s' k (other (queue d)) = Some vo
  ∧ (∃ e, buffer s !! k = Some e ∧ buffer s' = <[k := set_side (queue d) v e]> (buffer s))
  ∧ buffer_ts s' = buffer_ts s
  ∧ metric_log s' = metric_log s ++ debris (sink (world d)) r
  ∧ (sink (world d) = Open_raises → metric_log s' = metric_log s)
  ∧ trace s' = trace s ++ [Upserted k (queue d) v; Nacked (tag d) true].
Proof.
  intros Hd Hh Hok s1 s' r.
  assert (s' = record (Nacked (tag d) true) (littered (sink (world d)) r s1)) as Hs'
    by (by apply consume_io_error).
  assert (held s1 k (queue d) = Some v) as H1 by apply held_upserted_same.
  assert (held s1 k (other (queue d)) = Some vo) as H2
    by (unfold s1; by rewrite held_upserted_other).
  split.
  { apply try_finalize_io_error; [by apply (append_ok_false _ (world d))|done|done]. }
  split.
  { destruct (callback_returns d s) as [s2 Hs2]. unfold s', consume. by rewrite Hs2. }
  rewrite Hs'. split; [done|]. split; [done|].
  unfold held in Hh. destruct (buffer s !! k) as [e|] eqn:He; [|done].
  unfold s1, upserted. rewrite He. simpl. rewrite <- app_assoc.
  split; [eauto|]. split; [done|]. split; [done|]. split; [|done].
  intros ->. simpl. by rewrite app_nil_r.
Qed.

(** ** Acknowledgement *)

Lemma chain_spec sd w k v s :
  chain ttl sd w k v s =
  match try_finalize (sink w) k (upserted (time_upsert w) k sd v s) with
  | (Return _, s2) => (Return tt, swept ttl (time_sweep w) s2)
  | (Raise e, s2) => (Raise e, s2)
  end.
Proof.
  unfold chain. cbv beta iota delta [bind]. rewrite upsert_spec.
  destruct (try_finalize _ _ _) as [[[]|?] s2]; [|done]. by rewrite cleanup_spec.
Qed.

Lemma try_finalize_cases o k s :
  (try_finalize o k s = (Return tt, s))
  ∨ (∃ r, try_finalize o k s = (Return tt, joined k r s))
  ∨ (∃ r, try_finalize o k s = (Raise OSError, littered o r s)).
Proof.
  destruct (held s k Truth) as [v|] eqn:H1; [|left; apply try_finalize_idle; auto].
  destruct (held s k Predicted) as [vo|] eqn:H2; [|left; apply try_finalize_idle; auto].
  destruct o as [| |written] eqn:Ho.
  - right; left. eexists. by apply (try_finalize_join k Truth v vo).
  - right; right. eexists. by apply (try_finalize_io_error _ k Truth v vo).
  - right; right. eexists. by apply (try_finalize_io_error _ k Truth v vo).
Qed.

Lemma answered_cases w delivery_tag s :
  (ack_ok w = true ∧ answer w delivery_tag = [Acked delivery_tag]
   ∧ answered w delivery_tag s = record (Acked delivery_tag) s)
  ∨ (ack_ok w = false
     ∧ answer w delivery_tag = [Ack_raised delivery_tag; Nacked delivery_tag true]
     ∧ answered w delivery_tag s
       = record (Nacked delivery_tag true) (record (Ack_raised delivery_tag) s)).
Proof.
  unfold answered, answer. destruct (ack_ok w); [left|right]; (split; [done|]);
    (split; [done|]); apply state_eq; simpl; try done. by rewrite <- app_assoc.
Qed.

(** C7, amended. Either callback returns, and its calls to the broker are
    its last effects: only effects on the store and the file come before.
    [basic_ack] is called exactly when the body decoded and upsert,
    [try_finalize] and the sweep all returned, on the state the sweep left,
    with the upsert recorded first and the sweep last. When the body does
    not decode or a step raised, [basic_ack] is not called and the answer
    is [basic_nack] with [requeue=True], on the state the failing step
    left. [basic_ack] and [basic_nack] are both called for one delivery
    exactly when [basic_ack] itself raised: the handler of the [try] block
    then calls [basic_nack] with [requeue=True]. A delivery whose
    [basic_ack] returned is never rejected. *)
Theorem ack_after_side_effects d s :
  ∃ evs calls,
    callback ttl d s = (Return tt, consume ttl s d)
    ∧ trace (consume ttl s d) = trace s ++ evs ++ calls
    ∧ Forall (λ ev, is_verdict ev = false) evs
    ∧ ((∃ k v s2 fin deleted,
          decode (payload d) = inr (k, v)
          ∧ chain ttl (queue d) (world d) k v s = (Return tt, s2)
          ∧ evs = Upserted k (queue d) v :: fin
                    ++ [Swept (time_sweep (world d)) deleted]
          ∧ ((ack_ok (world d) = true
              ∧ calls = [Acked (tag d)]
              ∧ consume ttl s d = record (Acked (tag d)) s2)
             ∨ (ack_ok (world d) = false
                ∧ calls = [Ack_raised (tag d); Nacked (tag d) true]
                ∧ consume ttl s d
                  = record (Nacked (tag d) true) (record (Ack_raised (tag d)) s2))))
       ∨ (calls = [Nacked (tag d) true]
          ∧ ((∃ e, decode (payload d) = inl e ∧ evs = []
                   ∧ consume ttl s d = record (Nacked (tag d) true) s)
             ∨ (∃ k v e s2,
                  decode (payload d) = inr (k, v)
                  ∧ chain ttl (queue d) (world d) k v s = (Raise e, s2)
                  ∧ consume ttl s d = record (Nacked (tag d) true) s2)))).
Proof.
  assert (callback ttl d s = (Return tt, consume ttl s d)) as Hret.
  { destruct (callback_returns d s) as [s2 Hs2]. unfold consume. by rewrite Hs2. }
  unfold consume in *. rewrite callback_spec in *.
  destruct (decode (payload d)) as [e|[k v]] eqn:Hd.
  { exists [], [Nacked (tag d) true]. simpl. split; [done|]. split; [done|].
    split; [constructor|]. right. split; [done|]. left. eauto. }
  simpl in *. pose proof (chain_spec (queue d) (world d) k v s) as Hchain.
  set (s1 := upserted (time_upsert (world d)) k (queue d) v s) in *.
  assert (trace s1 = trace s ++ [Upserted k (queue d) v]) as Htr1
    by apply upserted_trace.
  destruct (try_finalize_cases (sink (world d)) k s1) as [H|[[r H]|[r H]]];
    rewrite H in *; simpl.
  - exists [Upserted k (queue d) v;
            Swept (time_sweep (world d)) (overdue ttl (time_sweep (world d)) s1)],
           (answer (world d) (tag d)).
    split; [done|]. split; [rewrite Htr1, <- !app_assoc; done|].
    split; [by repeat constructor|]. left.
    exists k, v, (swept ttl (time_sweep (world d)) s1), [],
           (overdue ttl (time_sweep (world d)) s1).
    split; [done|]. split; [done|]. split; [done|].
    destruct (answered_cases (world d) (tag d) (swept ttl (time_sweep (world d)) s1))
      as [(? & ? & ?)|(? & ? & ?)]; [left|right]; done.
  - exists [Upserted k (queue d) v; Appended r; Finalized k;
            Swept (time_sweep (world d))
              (overdue ttl (time_sweep (world d)) (joined k r s1))],
           (answer (world d) (tag d)).
    split; [done|]. split; [rewrite Htr1, <- !app_assoc; done|].
    split; [by repeat constructor|]. left.
    exists k, v, (swept ttl (time_sweep (world d)) (joined k r s1)),
           [Appended r; Finalized k],
           (overdue ttl (time_sweep (world d)) (joined k r s1)).
    split; [done|]. split; [done|]. split; [done|].
    destruct (answered_cases (world d) (tag d)
                (swept ttl (time_sweep (world d)) (joined k r s1)))
      as [(? & ? & ?)|(? & ? & ?)]; [left|right]; done.
  - exists [Upserted k (queue d) v], [Nacked (tag d) true].
    split; [done|]. split; [rewrite Htr1, <- !app_assoc; done|].
    split; [by repeat constructor|]. right. split; [done|]. right.
    exists k, v, OSError, (littered (sink (world d)) r s1). done.
Qed.

(** ** The four ways a delivery ends *)

Lemma consume_cases s d :
  (∃ e, decode (payload d) = inl e ∧ consume ttl s d = record (Nacked (tag d) true) s)
  ∨ (∃ k v,
       decode (payload d) = inr (k, v) ∧ held s k (other (queue d)) = None
       ∧ consume ttl s d =
         answered (world d) (tag d)
           (swept ttl (time_sweep (world d))
              (upserted (time_upsert (world d)) k (queue d) v s)))
  ∨ (∃ k v vo,
       decode (payload d) = inr (k, v) ∧ held s k (other (queue d)) = Some vo
       ∧ append_ok (world d) = true
       ∧ consume ttl s d =
         answered (world d) (tag d)
           (swept ttl (time_sweep (world d))
              (joined k (join_row k (queue d) v vo)
                 (upserted (time_upsert (world d)) k (queue d) v s))))
  ∨ (∃ k v vo,
       decode (payload d) = inr (k, v) ∧ held s k (other (queue d)) = Some vo
       ∧ append_ok (world d) = false
       ∧ consume ttl s d =
         record (Nacked (tag d) true)
           (littered (sink (world d)) (join_row k (queue d) v vo)
              (upserted (time_upsert (world d)) k (queue d) v s))).
Proof.
  destruct (decode (payload d)) as [e|[k v]] eqn:Hd.
  { left. eauto using consume_undecodable. }
  destruct (held s k (other (queue d))) as [vo|] eqn:Hh.
  - destruct (append_ok (world d)) eqn:Hok.
    + right; right; left. exists k, v, vo. eauto using consume_join.
    + right; right; right. exists k, v, vo. eauto using consume_io_error.
  - right; left. exists k, v. eauto using consume_wait.
Qed.

(** ** Entries and first-seen times go together *)

Lemma consistent_record ev s : consistent s → consistent (record ev s).
Proof. done. Qed.

Lemma consistent_answered w delivery_tag s :
  consistent s → consistent (answered w delivery_tag s).
Proof. done. Qed.

Lemma consistent_littered o r s : consistent s → consistent (littered o r s).
Proof. done. Qed.

Lemma consistent_upserted now k sd v s :
  consistent s → consistent (upserted now k sd v s).
Proof.
  intros Hc j. unfold upserted.
  destruct (buffer s !! k) as [e|] eqn:Hk; simpl.
  - destruct (decide (j = k)) as [->|Hne].
    + rewrite lookup_insert_eq. split; [intros _; apply Hc; eauto | eauto].
    + rewrite lookup_insert_ne by done. apply Hc.
  - destruct (decide (j = k)) as [->|Hne].
    + rewrite !lookup_insert_eq. split; eauto.
    + rewrite !lookup_insert_ne by done. apply Hc.
Qed.

Lemma consistent_joined k r s : consistent s → consistent (joined k r s).
Proof.
  intros Hc j. simpl. destruct (decide (j = k)) as [->|Hne].
  - rewrite !lookup_delete_eq. split; intros [? ?]; done.
  - rewrite !lookup_delete_ne by done. apply Hc.
Qed.

Lemma consistent_swept now s : consistent s → consistent (swept ttl now s).
Proof.
  intros Hc j. simpl. rewrite !keep_lookup.
  destruct (stale _ _ _ _); [split; intros [? ?]; done | apply Hc].
Qed.

Lemma consistent_consume s d : consistent s → consistent (consume ttl s d).
Proof.
  intros Hc.
  destruct (consume_cases s d)
    as [(e & _ & ->)|[(k & v & _ & _ & ->)|[(k & v & vo & _ & _ & _ & ->)
                                            |(k & v & vo & _ & _ & _ & ->)]]];
    auto using consistent_record, consistent_answered, consistent_littered,
               consistent_upserted, consistent_joined, consistent_swept.
Qed.

Lemma reachable_consistent s : reachable ttl s → consistent s.
Proof.
  induction 1 as [|s d _ IH]; [|by apply consistent_consume].
  intros k. simpl. rewrite !lookup_empty. split; intros [? ?]; done.
Qed.

Lemma reachable_run ds s : reachable ttl s → reachable ttl (run ttl ds s).
Proof.
  revert s. induction ds as [|d ds IH]; intros s Hs; [done|].
  simpl. apply IH. by constructor.
Qed.

(** ** Eviction *)

(** C2. In a reachable state a sweep at [now] returns normally, deletes
    every entry whose age [now - ts] exceeds the TTL together with its
    first-seen time, whatever sides it holds, keeps every other entry as it
    is, and leaves the file alone. An identifier without an entry, as an
    evicted one is, stays without one while deliveries for other identifiers
    are handled; the next delivery for it then finds no entry: the upsert
    creates one that holds the delivered value only and the clock at the
    upsert as first-seen time, [try_finalize] does nothing on it, and the
    delivery adds no row.
    In Scenario B (TTL 600, truth 10.0 at 0, sweep at 601) the entry of "X"
    is gone after the sweep and the file has no row. *)
Theorem ttl_eviction :
  (∀ s now,
     reachable ttl s →
     cleanup_old_records ttl now s = (Return tt, swept ttl now s)
     ∧ (∀ k e,
          buffer s !! k = Some e →
          ∃ ts, buffer_ts s !! k = Some ts
                ∧ buffer (swept ttl now s) !! k
                  = (if expired ttl now ts then None else Some e)
                ∧ buffer_ts (swept ttl now s) !! k
                  = (if expired ttl now ts then None else Some ts))
     ∧ (∀ k, buffer s !! k = None →
             buffer (swept ttl now s) !! k = None
             ∧ buffer_ts (swept ttl now s) !! k = None)
     ∧ metric_log (swept ttl now s) = metric_log s)
  ∧ (∀ s0 mid d k v,
       buffer s0 !! k = None →
       Forall (λ d', key_of d' ≠ Some k) mid →
       decode (payload d) = inr (k, v) →
       let s := run ttl mid s0 in
       let s1 := upserted (time_upsert (world d)) k (queue d) v s in
       buffer s !! k = None
       ∧ upsert (time_upsert (world d)) k (queue d) v s = (Return tt, s1)
       ∧ buffer s1 !! k = Some (set_side (queue d) v (Entry None None))
       ∧ buffer_ts s1 !! k = Some (time_upsert (world d))
       ∧ try_finalize (sink (world d)) k s1 = (Return tt, s1)
       ∧ metric_log (consume ttl s d) = metric_log s)
  ∧ (let s := run 600 scenario_B initial in
     let s' := (cleanup_old_records 600 601 s).2 in
     held s "X" Truth = Some 10%float
     ∧ buffer s' !! "X" = None ∧ buffer s' = ∅ ∧ metric_log s' = []).
Proof.
  split; [|split; [|by vm_compute]].
  - intros s now Hr. pose proof (reachable_consistent s Hr) as Hc.
    split; [apply cleanup_spec|]. split; [|split; [|done]].
    + intros k e Hk. destruct (proj1 (Hc k)) as [ts Hts]; [eauto|].
      exists ts. split; [done|]. simpl.
      rewrite !keep_lookup, (stale_fresh _ _ _ _ Hts), Hk, Hts.
      by destruct (expired ttl now ts).
    + intros k Hk. simpl. rewrite !keep_lookup, Hk.
      assert (buffer_ts s !! k = None) as ->.
      { destruct (buffer_ts s !! k) eqn:Ht; [|done].
        destruct (proj2 (Hc k)) as [? ?]; [eauto | congruence]. }
      by destruct (stale _ _ _ _).
  - intros s0 mid d k v Hfresh Hmid Hd s s1.
    assert (buffer s !! k = None) as Hk.
    { unfold s. clear s s1. revert s0 Hfresh.
      induction Hmid as [|d' mid Hd' _ IH]; intros s0 Hfresh; [done|].
      simpl. apply IH. unfold key_of in Hd'.
      destruct (decode (payload d')) as [e|[k' v']] eqn:He.
      - by rewrite (consume_undecodable _ _ _ He).
      - destruct (consume_foreign s0 d' k k' v' He) as [_ [[Hb _]|(_ & Hb & _)]];
          congruence. }
    assert (held s k (other (queue d)) = None) as Hh by (unfold held; by rewrite Hk).
    split; [done|]. split; [apply upsert_spec|].
    split; [unfold s1; by rewrite upserted_lookup, Hk|].
    split; [unfold s1, upserted; rewrite Hk; simpl; apply lookup_insert_eq|].
    split.
    + apply try_finalize_idle.
      pose proof (held_upserted_other (time_upsert (world d)) k (queue d) v s) as Ho.
      rewrite Hh in Ho. fold s1 in Ho. destruct (queue d); simpl in Ho; auto.
    + rewrite (consume_wait _ _ _ _ Hd Hh). simpl. by rewrite upserted_log.
Qed.

(** ** Redelivery *)

(** C4. Storing a value for an identifier that has an entry replaces the
    value of that side and nothing else: the set of keys, the other side of
    the entry, every other entry, the first-seen times and the file are as
    before. A redelivery of the side an entry waits with, handled before
    the entry is overdue, leaves the entry with the new value, the same
    first-seen time and no row. So when an identifier with no entry gets one
    side, then any deliveries that do not bring its other side (redeliveries
    of the first side among them), then the other side, the run adds one row
    for it, made of the last value of the first side and the value of the
    other. In Scenario C the file holds the single row ("Y", 4.0, 5.0, 1.0). *)
Theorem idempotent_overwrite :
  (∀ s now k sd v e,
     buffer s !! k = Some e →
     let s' := upserted now k sd v s in
     upsert now k sd v s = (Return tt, s')
     ∧ buffer s' = <[k := set_side sd v e]> (buffer s)
     ∧ dom (buffer s') = dom (buffer s)
     ∧ stored sd (set_side sd v e) = Some v
     ∧ stored (other sd) (set_side sd v e) = stored (other sd) e
     ∧ buffer_ts s' = buffer_ts s
     ∧ metric_log s' = metric_log s)
  ∧ (∀ s d k v v' ts,
       waits s k (queue d) v ts →
       decode (payload d) = inr (k, v') →
       expired ttl (time_sweep (world d)) ts = false →
       waits (consume ttl s d) k (queue d) v' ts
       ∧ metric_log (consume ttl s d) = metric_log s)
  ∧ (∀ s d1 mid d2 k v1 v2,
       buffer s !! k = None →
       decode (payload d1) = inr (k, v1) →
       decode (payload d2) = inr (k, v2) →
       queue d2 = other (queue d1) →
       Forall (λ d, ¬ feeds d k (queue d2)) mid →
       Forall (λ d, expired ttl (time_sweep (world d)) (time_upsert (world d1)) = false)
              (d1 :: mid) →
       append_ok (world d2) = true →
       rows_of k (metric_log (run ttl (d1 :: mid ++ [d2]) s))
       = rows_of k (metric_log s)
           ++ [Whole (join_row k (queue d2) v2 (latest k (queue d1) mid v1))]
       ∧ buffer_ts (run ttl (d1 :: mid) s) !! k = Some (time_upsert (world d1))
       ∧ buffer (run ttl (d1 :: mid ++ [d2]) s) !! k = None)
  ∧ metric_log (run 600 scenario_C initial) = [Whole (Row "Y" 4 5 1)]
  ∧ buffer (run 600 scenario_C initial) = ∅.
Proof.
  split; [|split; [|split; [|by vm_compute]]].
  - intros s now k sd v e Hk s'. split; [apply upsert_spec|].
    unfold s', upserted. rewrite Hk. simpl.
    split; [done|]. split.
    { apply dom_insert_lookup_L. eauto. }
    split; [apply stored_set_same|]. split; [apply stored_set_other|]. done.
  - intros s d k v v' ts Hw Hd Hexp.
    pose proof (waits_held _ _ _ _ _ Hw) as [_ Hh].
    destruct (consume_waits s d k (queue d) v ts Hw) as [Hw' _]; [|done|].
    { intros [_ Hq]. by destruct (queue d). }
    rewrite (refresh_same _ _ _ _ _ Hd eq_refl) in Hw'. split; [done|].
    rewrite (consume_wait _ _ _ _ Hd Hh). simpl. apply upserted_log.
  - intros s d1 mid d2 k v1 v2 Hfresh Hd1 Hd2 Hq Hmid Hexp Hok.
    destruct (run_join s d1 mid d2 k v1 v2 Hfresh Hd1 Hd2 Hq Hmid Hexp Hok)
      as (_ & [_ Hts] & _ & Hrows & Hb & _).
    done.
Qed.

(** ** The order of the two sides *)

Lemma consume_settle s d k v :
  decode (payload d) = inr (k, v) →
  consume ttl s d
  = settle ttl (world d) k (tag d)
      (upserted (time_upsert (world d)) k (queue d) v s).
Proof.
  intros Hd. unfold consume, settle. rewrite callback_spec, Hd. simpl.
  by destruct (try_finalize _ _ _) as [[?|?] ?].
Qed.

Lemma settle_same_outcome w k delivery_tag a b :
  same_outcome a b →
  same_outcome (settle ttl w k delivery_tag a) (settle ttl w k delivery_tag b).
Proof.
  destruct a as [ba ta la tra], b as [bb tb lb trb].
  intros (Hb & Ht & Hl). simpl in *. subst bb tb lb.
  unfold settle, try_finalize, bind, get, ret, append_metric_row, modify, raise. simpl.
  destruct (ba !! k) as [[[yt|] [yp|]]|]; simpl; try done.
  destruct (sink w); simpl; done.
Qed.

Lemma buffer_ts_upserted now k sd v s :
  buffer_ts (upserted now k sd v s)
  = match buffer s !! k with
    | Some _ => buffer_ts s
    | None => <[k := now]> (buffer_ts s)
    end.
Proof. unfold upserted. by destruct (buffer s !! k). Qed.

(** C3, amended. When the identifier has no entry at the first delivery and
    the sweep that follows the first delivery does not find the new entry
    overdue, the truth value followed by the predicted value and the predicted
    value followed by the truth value, at the same clock readings, leave
    the same store and the same file; when the append goes through, both
    orders add the row (key, truth, predicted, |truth - predicted|). *)
Theorem order_independence_fresh s k vt vp w1 w2 t1 t2 b_true b_pred :
  decode b_true = inr (k, vt) →
  decode b_pred = inr (k, vp) →
  buffer s !! k = None →
  expired ttl (time_sweep w1) (time_upsert w1) = false →
  let s_tp := run ttl (truth_first w1 w2 t1 t2 b_true b_pred) s in
  let s_pt := run ttl (predicted_first w1 w2 t1 t2 b_true b_pred) s in
  same_outcome s_tp s_pt
  ∧ (append_ok w2 = true →
     metric_log s_tp
     = metric_log s ++ [Whole (Row k vt vp (PrimFloat.abs (PrimFloat.sub vt vp)))]
     ∧ buffer s_tp !! k = None).
Proof.
  intros Ht Hp Hfresh Hexp s_tp s_pt.
  set (dT1 := Delivery Truth w1 t1 b_true). set (dP2 := Delivery Predicted w2 t2 b_pred).
  set (dP1 := Delivery Predicted w1 t1 b_pred). set (dT2 := Delivery Truth w2 t2 b_true).
  assert (s_tp = consume ttl (consume ttl s dT1) dP2) as -> by done.
  assert (s_pt = consume ttl (consume ttl s dP1) dT2) as -> by done.
  destruct (consume_first s dT1 k vt Hfresh Ht Hexp) as [[HAb HAt] HAl].
  destruct (consume_first s dP1 k vp Hfresh Hp Hexp) as [[HBb HBt] HBl].
  assert (held s k Predicted = None ∧ held s k Truth = None) as [HhP HhT]
    by (unfold held; by rewrite Hfresh).
  split.
  - rewrite (consume_settle _ dP2 k vp Hp), (consume_settle _ dT2 k vt Ht).
    apply settle_same_outcome. simpl.
    set (A1 := consume ttl s dT1) in *. set (B1 := consume ttl s dP1) in *.
    repeat split.
    + apply map_eq. intros j. destruct (decide (j = k)) as [->|Hne].
      * rewrite !upserted_lookup, HAb, HBb. done.
      * rewrite (proj1 (upserted_lookup_ne _ k Predicted vp A1 j Hne)).
        rewrite (proj1 (upserted_lookup_ne _ k Truth vt B1 j Hne)).
        unfold A1, B1.
        rewrite (consume_wait dT1 s k vt Ht HhP), (consume_wait dP1 s k vp Hp HhT).
        simpl. rewrite !keep_lookup. unfold stale.
        rewrite !buffer_ts_upserted, Hfresh.
        rewrite (proj1 (upserted_lookup_ne _ k Truth vt s j Hne)).
        by rewrite (proj1 (upserted_lookup_ne _ k Predicted vp s j Hne)).
    + rewrite !buffer_ts_upserted, HAb, HBb. unfold A1, B1.
      rewrite (consume_wait dT1 s k vt Ht HhP), (consume_wait dP1 s k vp Hp HhT).
      simpl. by rewrite !buffer_ts_upserted, Hfresh.
    + rewrite !upserted_log. congruence.
  - intros Hok.
    destruct (consume_completes (consume ttl s dT1) dP2 k Truth vt (time_upsert w1) vp)
      as (Hlog & Hb & _); [done..|].
    split; [|done]. by rewrite Hlog, HAl.
Qed.

(** ** The identifier under which a delivery is stored *)

Lemma decode_message id_field body_field :
  decode (message id_field body_field)
  = match py_float body_field with
    | inl e => inl e
    | inr v => inr (py_str id_field, v)
    end.
Proof. reflexivity. Qed.

Lemma no_join_distinct_keys s d1 d2 k1 k2 v1 v2 :
  decode (payload d1) = inr (k1, v1) →
  decode (payload d2) = inr (k2, v2) →
  k1 ≠ k2 → buffer s !! k1 = None → buffer s !! k2 = None →
  metric_log (run ttl [d1; d2] s) = metric_log s.
Proof.
  intros Hd1 Hd2 Hne Hf1 Hf2. simpl.
  assert (held s k1 (other (queue d1)) = None) as Hh1 by (unfold held; by rewrite Hf1).
  assert (held s k2 (other (queue d2)) = None) as Hh2 by (unfold held; by rewrite Hf2).
  destruct (consume_lacking s d1 k2 (queue d2) Hh2) as [Hh2' _].
  { intros [Hk _]. unfold key_of in Hk. rewrite Hd1 in Hk. congruence. }
  rewrite (consume_wait d2 _ k2 v2 Hd2 Hh2'). simpl. rewrite upserted_log.
  rewrite (consume_wait d1 _ k1 v1 Hd1 Hh1). simpl. by rewrite upserted_log.
Qed.

(** C10. The key of a delivery is [str] of the "id" field of its document,
    in both callbacks. A truth message and a predicted message whose ids
    have the same [str] meet in one entry and give one row under that key
    (identifier new, entry not overdue at the first sweep, append going
    through); when the two [str] differ and neither key has an entry, they
    make two entries and no row, in either order. A delivery never joins its
    value with anything but the value held under its own key: what it adds
    to the file, if anything, is the line of that row, or what a write that
    raised left of it. The int 5 and
    the string "5" have the same key "5" and join; the float 5.0 has the
    key "5.0" and does not join with the int 5. *)
Theorem key_is_str_of_id :
  (∀ b k v,
     decode b = inr (k, v) →
     ∃ msg id_field,
       b = Document msg ∧ py_getitem msg "id" = inr id_field ∧ k = py_str id_field)
  ∧ (∀ s w1 w2 t1 t2 id_true id_pred body_true body_pred vt vp,
       py_float body_true = inr vt → py_float body_pred = inr vp →
       py_str id_true = py_str id_pred →
       buffer s !! py_str id_true = None →
       expired ttl (time_sweep w1) (time_upsert w1) = false →
       append_ok w2 = true →
       let b_true := message id_true body_true in
       let b_pred := message id_pred body_pred in
       let r := Row (py_str id_true) vt vp (PrimFloat.abs (PrimFloat.sub vt vp)) in
       metric_log (run ttl (truth_first w1 w2 t1 t2 b_true b_pred) s) = metric_log s ++ [Whole r]
       ∧ metric_log (run ttl (predicted_first w1 w2 t1 t2 b_true b_pred) s)
         = metric_log s ++ [Whole r])
  ∧ (∀ s w1 w2 t1 t2 id_true id_pred body_true body_pred vt vp,
       py_float body_true = inr vt → py_float body_pred = inr vp →
       py_str id_true ≠ py_str id_pred →
       buffer s !! py_str id_true = None →
       buffer s !! py_str id_pred = None →
       let b_true := message id_true body_true in
       let b_pred := message id_pred body_pred in
       metric_log (run ttl (truth_first w1 w2 t1 t2 b_true b_pred) s) = metric_log s
       ∧ metric_log (run ttl (predicted_first w1 w2 t1 t2 b_true b_pred) s)
         = metric_log s)
  ∧ (∀ s d k v,
       decode (payload d) = inr (k, v) →
       metric_log (consume ttl s d) = metric_log s
       ∨ ∃ vo, held s k (other (queue d)) = Some vo
               ∧ (metric_log (consume ttl s d)
                  = metric_log s ++ [Whole (join_row k (queue d) v vo)]
                  ∨ ∃ written,
                      metric_log (consume ttl s d)
                      = metric_log s ++ [Torn written (join_row k (queue d) v vo)]))
  ∧ py_str (VInt 5) = "5" ∧ py_str (VStr "5") = "5" ∧ py_str (VFloat 5) = "5.0"
  ∧ metric_log (run 600 (truth_first (Env 0 0 Appends true) (Env 1 1 Appends true) 1 2
                           (message (VInt 5) (VFloat 4)) (message (VStr "5") (VFloat 6)))
                  initial)
    = [Whole (Row "5" 4 6 2)]
  ∧ (let s := run 600 (truth_first (Env 0 0 Appends true) (Env 1 1 Appends true) 1 2
                         (message (VInt 5) (VFloat 4)) (message (VFloat 5) (VFloat 6)))
                initial in
     metric_log s = []
     ∧ buffer s !! "5" = Some (Entry (Some 4%float) None)
     ∧ buffer s !! "5.0" = Some (Entry None (Some 6%float))).
Proof.
  split; [|split; [|split; [|split; [|by vm_compute]]]].
  - intros [|msg] k v H; [done|]. simpl in H.
    destruct (py_getitem msg "id") as [?|id_field] eqn:H1; [done|].
    destruct (py_getitem msg "body") as [?|body_field]; [done|].
    destruct (py_float body_field); [done|].
    exists msg, id_field. by simplify_eq.
  - intros s w1 w2 t1 t2 id_true id_pred body_true body_pred vt vp
      Hvt Hvp Hkey Hfresh Hexp Hok b_true b_pred r.
    assert (decode b_true = inr (py_str id_true, vt)) as Ht
      by (unfold b_true; by rewrite decode_message, Hvt).
    assert (decode b_pred = inr (py_str id_true, vp)) as Hp
      by (unfold b_pred; by rewrite decode_message, Hvp, Hkey).
    set (dT1 := Delivery Truth w1 t1 b_true). set (dP2 := Delivery Predicted w2 t2 b_pred).
    set (dP1 := Delivery Predicted w1 t1 b_pred). set (dT2 := Delivery Truth w2 t2 b_true).
    destruct (run_join s dT1 [] dP2 _ vt vp Hfresh Ht Hp) as (_ & _ & Hl1 & _);
      [done|constructor|by repeat constructor|done|].
    destruct (run_join s dP1 [] dT2 _ vp vt Hfresh Hp Ht) as (_ & _ & Hl2 & _);
      [done|constructor|by repeat constructor|done|].
    destruct (consume_first s dT1 _ vt Hfresh Ht Hexp) as [_ Hb1].
    destruct (consume_first s dP1 _ vp Hfresh Hp Hexp) as [_ Hb2].
    simpl in Hl1, Hl2. rewrite Hb1 in Hl1. rewrite Hb2 in Hl2. done.
  - intros s w1 w2 t1 t2 id_true id_pred body_true body_pred vt vp
      Hvt Hvp Hne HfT HfP b_true b_pred.
    assert (decode b_true = inr (py_str id_true, vt)) as Ht
      by (unfold b_true; by rewrite decode_message, Hvt).
    assert (decode b_pred = inr (py_str id_pred, vp)) as Hp
      by (unfold b_pred; by rewrite decode_message, Hvp).
    split.
    + by apply (no_join_distinct_keys s (Delivery Truth w1 t1 b_true)
                  (Delivery Predicted w2 t2 b_pred)
                  (py_str id_true) (py_str id_pred) vt vp).
    + by apply (no_join_distinct_keys s (Delivery Predicted w1 t1 b_pred)
                  (Delivery Truth w2 t2 b_true)
                  (py_str id_pred) (py_str id_true) vp vt).
  - intros s d k v Hd.
    destruct (consume_cases s d)
      as [(e & He & _)|[(k' & v' & Hd' & _ & ->)|[(k' & v' & vo & Hd' & Hh & _ & ->)
                                               |(k' & v' & vo & Hd' & Hh & _ & ->)]]];
      [congruence|..]; rewrite Hd in Hd'; simplify_eq; simpl; rewrite ?upserted_log;
      [eauto..|].
    destruct (sink (world d)); simpl; rewrite ?app_nil_r; eauto 6.
Qed.

(** ** The life of an entry *)

Lemma lifecycle_app k tr evs :
  lifecycle k (tr ++ evs) = lifecycle k tr ++ lifecycle k evs.
Proof. unfold lifecycle. by rewrite map_app, concat_app. Qed.

Lemma presence_cons p x l :
  presence p (x :: l)
  = presence (match x with Arrival => true | Finalize | Evict => false end) l.
Proof.
  unfold presence. destruct l as [|y l]; [by destruct x|].
  rewrite last_cons_cons. destruct (last (y :: l)) eqn:E; [done|].
  by apply last_None in E.
Qed.

Lemma presence_app p l l' : presence p (l ++ l') = presence (presence p l) l'.
Proof.
  revert p. induction l as [|x l IH]; intros p; [done|].
  by rewrite <- app_comm_cons, !presence_cons, IH.
Qed.

Lemma orderly_from_app p l l' :
  orderly_from p (l ++ l') = orderly_from p l && orderly_from (presence p l) l'.
Proof.
  revert p. induction l as [|x l IH]; intros p; [done|].
  rewrite <- app_comm_cons, presence_cons.
  destruct x; simpl; rewrite IH; by rewrite ?andb_assoc.
Qed.

Lemma life_ok_step k s s' evs :
  life_ok k s →
  trace s' = trace s ++ evs →
  orderly_from (pending (lifecycle k (trace s))) (lifecycle k evs) = true →
  (is_Some (buffer s' !! k)
   ↔ presence (pending (lifecycle k (trace s))) (lifecycle k evs) = true) →
  life_ok k s'.
Proof.
  intros [Hp Ho] Htr Ho' Hp'. unfold life_ok, pending, orderly in *.
  rewrite Htr, lifecycle_app, presence_app, orderly_from_app, Ho. done.
Qed.

Lemma life_ok_silent k s s' evs :
  life_ok k s → trace s' = trace s ++ evs → lifecycle k evs = [] →
  buffer s' !! k = buffer s !! k → life_ok k s'.
Proof.
  intros Hl Htr Hev Hb. eapply life_ok_step; [done..| |]; rewrite Hev; [done|].
  rewrite Hb. apply Hl.
Qed.

Lemma life_ok_record k ev s :
  life_of k ev = [] → life_ok k s → life_ok k (record ev s).
Proof.
  intros Hev Hl. eapply (life_ok_silent k s _ [ev]); try done.
  unfold lifecycle. simpl. by rewrite Hev.
Qed.

Lemma life_ok_answered k w delivery_tag s :
  life_ok k s → life_ok k (answered w delivery_tag s).
Proof.
  intros Hl. eapply (life_ok_silent k s _ (answer w delivery_tag)); try done.
  unfold answer. by destruct (ack_ok w).
Qed.

Lemma life_ok_littered k o r s : life_ok k s → life_ok k (littered o r s).
Proof. done. Qed.

Lemma life_ok_upserted k now k0 sd v s :
  life_ok k s → life_ok k (upserted now k0 sd v s).
Proof.
  intros Hl. destruct (decide (k0 = k)) as [->|Hne].
  - eapply life_ok_step; [done|apply upserted_trace|..];
      unfold lifecycle; simpl; rewrite decide_True by done; [done|].
    rewrite upserted_lookup. split; eauto.
  - eapply life_ok_silent; [done|apply upserted_trace|..].
    + unfold lifecycle. simpl. by rewrite decide_False.
    + by apply upserted_lookup_ne.
Qed.

Lemma life_ok_joined k k0 r s :
  is_Some (buffer s !! k0) → life_ok k s → life_ok k (joined k0 r s).
Proof.
  intros Hin Hl. destruct (decide (k0 = k)) as [->|Hne].
  - eapply (life_ok_step k s _ [Appended r; Finalized k]); [done|done|..];
      unfold lifecycle; simpl; rewrite decide_True by done; simpl.
    + rewrite andb_true_r. by apply Hl.
    + rewrite lookup_delete_eq. split; [intros [? ?]|]; done.
  - eapply (life_ok_silent k s _ [Appended r; Finalized k0]); [done|done|..].
    + unfold lifecycle. simpl. by rewrite decide_False.
    + simpl. by rewrite lookup_delete_ne.
Qed.

Lemma life_ok_swept k now s :
  consistent s → life_ok k s → life_ok k (swept ttl now s).
Proof.
  intros Hc Hl.
  destruct (stale ttl now (buffer_ts s) k) eqn:Hst.
  - assert (is_Some (buffer s !! k)) as Hin.
    { apply Hc. unfold stale in Hst. destruct (buffer_ts s !! k); [eauto | done]. }
    eapply (life_ok_step k s _ [Swept now (overdue ttl now s)]); [done|done|..];
      unfold lifecycle; simpl;
      rewrite decide_True by (by apply elem_of_overdue_keys); simpl.
    + rewrite andb_true_r. by apply Hl.
    + rewrite keep_lookup, Hst. split; [intros [? ?]|]; done.
  - eapply (life_ok_silent k s _ [Swept now (overdue ttl now s)]); [done|done|..].
    + unfold lifecycle. simpl. rewrite decide_False; [done|].
      rewrite elem_of_overdue_keys. congruence.
    + simpl. by rewrite keep_lookup, Hst.
Qed.

Lemma life_ok_consume k s d : consistent s → life_ok k s → life_ok k (consume ttl s d).
Proof.
  intros Hc Hl.
  destruct (consume_cases s d)
    as [(e & _ & ->)|[(k0 & v & _ & _ & ->)|[(k0 & v & vo & _ & _ & _ & ->)
                                            |(k0 & v & vo & _ & _ & _ & ->)]]].
  - by apply life_ok_record.
  - apply life_ok_answered. apply life_ok_swept.
    + by apply consistent_upserted.
    + by apply life_ok_upserted.
  - apply life_ok_answered. apply life_ok_swept.
    + by apply consistent_joined, consistent_upserted.
    + apply life_ok_joined; [rewrite upserted_lookup; eauto|].
      by apply life_ok_upserted.
  - apply life_ok_record; [done|]. by apply life_ok_littered, life_ok_upserted.
Qed.

Lemma paired_app tr evs : paired tr = true → paired (tr ++ evs) = paired evs.
Proof.
  remember (length tr) as n eqn:Hn. revert tr Hn.
  induction n as [n IH] using lt_wf_ind. intros tr Hn Hp.
  destruct tr as [|e1 tr]; [done|].
  destruct e1; simpl in *;
    try (apply (IH (length tr)); [lia | done | done]); try done.
  destruct tr as [|e2 tr]; [done|].
  destruct e2; simpl in *; try done.
  apply andb_true_iff in Hp as [Hk Hp]. rewrite Hk. simpl.
  apply (IH (length tr)); [simpl in Hn; lia | done | done].
Qed.

Lemma sweep_honest_overdue now s : sweep_honest ttl (Swept now (overdue ttl now s)).
Proof.
  simpl. apply Forall_forall. intros [k ts] Hin.
  by apply elem_of_overdue in Hin as [_ ?].
Qed.

Lemma trace_consume s d :
  paired (trace s) = true → Forall (sweep_honest ttl) (trace s) →
  paired (trace (consume ttl s d)) = true
  ∧ Forall (sweep_honest ttl) (trace (consume ttl s d)).
Proof.
  intros Hp Hs.
  destruct (consume_cases s d)
    as [(e & _ & ->)|[(k0 & v & _ & _ & ->)|[(k0 & v & vo & _ & _ & _ & ->)
                                            |(k0 & v & vo & _ & _ & _ & ->)]]];
    simpl; unfold answer; try destruct (ack_ok (world d));
    rewrite ?upserted_trace, <- ?app_assoc; simpl;
    (split; [rewrite paired_app by done; simpl;
             rewrite ?row_id_join_row, ?bool_decide_eq_true_2; done|]);
    apply Forall_app; (split; [done|]);
    repeat (apply Forall_cons; split); try done; try apply sweep_honest_overdue.
Qed.

Lemma reachable_life s :
  reachable ttl s →
  (∀ k, life_ok k s) ∧ paired (trace s) = true ∧ Forall (sweep_honest ttl) (trace s).
Proof.
  induction 1 as [|s d Hr (Hl & Hp & Hs)].
  - split; [|done]. intros k. split; [|done]. simpl. rewrite lookup_empty.
    split; [intros [? ?]|]; done.
  - split; [|by apply trace_consume].
    intros k. apply life_ok_consume; [by apply reachable_consistent | apply Hl].
Qed.

(** The events of a delivery: one store, of the key and the value of the
    delivery, at their head when the body decodes, and no store at all
    when it does not. *)
Lemma events_spec s d :
  trace (consume ttl s d) = trace s ++ events ttl s d
  ∧ match decode (payload d) with
    | inl _ => events ttl s d = [Nacked (tag d) true]
    | inr (k, v) =>
        ∃ rest, events ttl s d = Upserted k (queue d) v :: rest ∧ Forall no_store rest
    end.
Proof.
  assert (∃ evs,
            trace (consume ttl s d) = trace s ++ evs
            ∧ match decode (payload d) with
              | inl _ => evs = [Nacked (tag d) true]
              | inr (k, v) =>
                  ∃ rest, evs = Upserted k (queue d) v :: rest ∧ Forall no_store rest
              end) as (evs & Htr & Hevs).
  { destruct (consume_cases s d)
      as [(e & Hd & ->)|[(k & v & Hd & _ & ->)|[(k & v & vo & Hd & _ & _ & ->)
                                              |(k & v & vo & Hd & _ & _ & ->)]]];
      rewrite Hd; simpl; rewrite ?upserted_trace, <- ?app_assoc; simpl;
      (eexists; split; [reflexivity|]); [done|..]; eexists; (split; [reflexivity|]);
      unfold answer; try destruct (ack_ok (world d)); by repeat constructor. }
  assert (events ttl s d = evs) as ->; [|done].
  unfold events. by rewrite Htr, drop_app_length.
Qed.

Lemma removals_app l l' : removals (l ++ l') = removals l ++ removals l'.
Proof. apply flat_map_app. Qed.

Lemma lifecycle_no_store k evs :
  Forall no_store evs → removals (lifecycle k evs) = lifecycle k evs.
Proof.
  induction 1 as [|ev evs Hev _ IH]; [done|].
  change (lifecycle k (ev :: evs)) with (life_of k ev ++ lifecycle k evs).
  rewrite removals_app, IH. f_equal.
  destruct ev; try done; simpl; by case_decide.
Qed.

(** The lives that the trace records for a delivery are the arrival read
    off the delivery, then its removals. *)
Lemma lifecycle_events k s d :
  lifecycle k (events ttl s d)
  = (if decide (key_of d = Some k) then [Arrival] else [])
      ++ removals (lifecycle k (events ttl s d)).
Proof.
  destruct (events_spec s d) as [_ Hev]. unfold key_of.
  destruct (decode (payload d)) as [e|[k0 v]].
  { rewrite Hev. by rewrite decide_False. }
  destruct Hev as (rest & -> & Hrest).
  change (lifecycle k (Upserted k0 (queue d) v :: rest))
    with (life_of k (Upserted k0 (queue d) v) ++ lifecycle k rest).
  rewrite removals_app, (lifecycle_no_store k rest Hrest). simpl.
  destruct (decide (k0 = k)) as [->|Hne].
  - by rewrite decide_True.
  - rewrite decide_False; [done|]. congruence.
Qed.

Lemma lifecycle_run k ds s :
  lifecycle k (trace (run ttl ds s)) = lifecycle k (trace s) ++ story ttl k ds s.
Proof.
  revert s. induction ds as [|d ds IH]; intros s; simpl; [by rewrite app_nil_r|].
  rewrite IH. destruct (events_spec s d) as [-> _].
  rewrite lifecycle_app, <- app_assoc. f_equal.
  rewrite app_assoc. f_equal. apply lifecycle_events.
Qed.

Lemma reachable_runs s : reachable ttl s ↔ ∃ ds, s = run ttl ds initial.
Proof.
  split.
  - induction 1 as [|s d _ [ds ->]]; [by exists []|].
    exists (ds ++ [d]). by rewrite run_snoc.
  - intros [ds ->]. apply reachable_run. constructor.
Qed.

(** C9. After every run of deliveries from the empty store: an identifier
    has an entry exactly when a delivery brought a side of it after its
    last removal (or at all, if it was never removed), where the arrivals
    are the deliveries of the run whose body decodes to that key, and the
    stores that the trace records are exactly these; it has a first-seen
    time exactly when it has an entry; every removal of an entry, by
    [try_finalize] or by the sweep, comes right after an arrival, so an
    entry is never removed twice; [try_finalize] removes an entry exactly
    when it has just appended the row of that identifier; and a sweep
    removes only entries whose age exceeds the TTL. The states in
    question are all the reachable ones. *)
Theorem entry_lifecycle ds :
  let s := run ttl ds initial in
  reachable ttl s
  ∧ consistent s
  ∧ (∀ k, lifecycle k (trace s) = story ttl k ds initial
          ∧ (is_Some (buffer s !! k) ↔ pending (story ttl k ds initial) = true)
          ∧ orderly (story ttl k ds initial) = true)
  ∧ paired (trace s) = true
  ∧ Forall (sweep_honest ttl) (trace s)
  ∧ (∀ s', reachable ttl s' → ∃ ds', s' = run ttl ds' initial).
Proof.
  intros s.
  assert (reachable ttl s) as Hr by (apply reachable_run; constructor).
  destruct (reachable_life s Hr) as (Hl & Hp & Hs).
  split; [done|]. split; [by apply reachable_consistent|].
  split; [|split; [done|split; [done|]]].
  - intros k. pose proof (lifecycle_run k ds initial) as Hstory.
    simpl in Hstory. fold s in Hstory. rewrite <- Hstory.
    split; [done|]. apply Hl.
  - intros s' Hs'. by apply reachable_runs.
Qed.

(** ** What a run does to the file, the broker and the other entries *)

Lemma consume_log s d :
  metric_log (consume ttl s d) = metric_log s
  ∨ ∃ k v vo ln,
      decode (payload d) = inr (k, v)
      ∧ held s k (other (queue d)) = Some vo
      ∧ row_of ln = join_row k (queue d) v vo
      ∧ left_by d ln
      ∧ metric_log (consume ttl s d) = metric_log s ++ [ln].
Proof.
  destruct (consume_cases s d)
    as [(e & _ & ->)|[(k & v & _ & _ & ->)|[(k & v & vo & Hd & Hh & Hok & ->)
                                            |(k & v & vo & Hd & Hh & Hok & ->)]]];
    simpl; rewrite ?upserted_log; [by left..| |].
  - right. exists k, v, vo, (Whole (join_row k (queue d) v vo)).
    repeat split; try done. unfold key_of. simpl. by rewrite Hd, row_id_join_row.
  - destruct (sink (world d)) as [| |written] eqn:Ho; simpl; rewrite ?app_nil_r;
      [by left..|].
    right. exists k, v, vo, (Torn written (join_row k (queue d) v vo)).
    repeat split; try done. unfold key_of. simpl. by rewrite Hd, row_id_join_row.
Qed.

(** X1. The callbacks only ever add to the file: whatever the deliveries
    and however their appends end, the file after a run is the file before
    followed by at most one line per delivery; each new line was written
    from a row that carries the key of one of the deliveries, whole when
    the append of that delivery went through, torn after as many
    characters as its write got to when it raised. *)
Theorem file_only_grows ds s :
  ∃ lines,
    metric_log (run ttl ds s) = metric_log s ++ lines
    ∧ (length lines ≤ length ds)%nat
    ∧ Forall (λ ln, ∃ d, d ∈ ds ∧ left_by d ln) lines.
Proof.
  revert s. induction ds as [|d ds IH]; intros s.
  { exists []. by rewrite app_nil_r. }
  destruct (IH (consume ttl s d)) as (lines & Hlog & Hlen & Hall).
  assert (∀ ln, (∃ d', d' ∈ ds ∧ left_by d' ln) →
                ∃ d', d' ∈ d :: ds ∧ left_by d' ln) as Hweak.
  { intros ln (d' & Hin & Hk). exists d'. split; [by right | done]. }
  destruct (consume_log s d) as [Hsame|(k & v & vo & ln & Hd & _ & _ & Hleft & Hrow)].
  - exists lines. simpl. rewrite Hlog, Hsame. split; [done|]. split; [lia|].
    eapply Forall_impl; [exact Hall | exact Hweak].
  - exists (ln :: lines). simpl.
    rewrite Hlog, Hrow, <- app_assoc. split; [done|]. split; [simpl; lia|].
    constructor; [|eapply Forall_impl; [exact Hall | exact Hweak]].
    exists d. split; [left|done].
Qed.

Lemma sound_join_row k sd v vo : sound_row (Whole (join_row k sd v vo)).
Proof. by destruct sd. Qed.

(** X2. In every state reached from the empty one, every whole line of
    the file has, as its last field, the absolute value of the difference
    of its truth and predicted fields. *)
Theorem rows_are_sound s :
  reachable ttl s → Forall sound_row (metric_log s).
Proof.
  induction 1 as [|s d _ IH]; [constructor|].
  destruct (consume_log s d) as [->|(k & v & vo & ln & _ & _ & Hrow & _ & ->)]; [done|].
  apply Forall_app. split; [done|]. repeat constructor.
  destruct ln as [r|written r]; [|done]. simpl in Hrow. subst r. apply sound_join_row.
Qed.

Lemma verdicts_app tr evs : verdicts (tr ++ evs) = verdicts tr ++ verdicts evs.
Proof. apply filter_app. Qed.

Lemma verdicts_answer w delivery_tag : verdicts (answer w delivery_tag) = answer w delivery_tag.
Proof. unfold answer. by destruct (ack_ok w). Qed.

Lemma answers_answer d : answers d (answer (world d) (tag d)).
Proof. unfold answers, answer. destruct (ack_ok (world d)); auto. Qed.

Lemma verdicts_consume s d :
  ∃ evs, answers d evs
         ∧ verdicts (trace (consume ttl s d)) = verdicts (trace s) ++ evs.
Proof.
  destruct (consume_cases s d)
    as [(e & _ & ->)|[(k & v & _ & _ & ->)|[(k & v & vo & _ & _ & _ & ->)
                                            |(k & v & vo & _ & _ & _ & ->)]]];
    simpl; rewrite ?upserted_trace, !verdicts_app, ?verdicts_answer; simpl;
    rewrite ?app_nil_r; eauto using answers_answer; unfold answers; eauto.
Qed.

(** X3. The deliveries of a run are answered in the order of delivery, each
    with its own delivery tag: by one [basic_ack] that returns, or by one
    [basic_nack] with [requeue=True], or, when [basic_ack] raises, by that
    [basic_ack] and the [basic_nack] of the handler after it. So
    [basic_nack] is called at most once for a delivery, and never for one
    whose [basic_ack] returned. *)
Theorem deliveries_are_answered_in_order ds s :
  ∃ calls,
    verdicts (trace (run ttl ds s)) = verdicts (trace s) ++ concat calls
    ∧ Forall2 answers ds calls.
Proof.
  revert s. induction ds as [|d ds IH]; intros s.
  { exists []. by rewrite app_nil_r. }
  destruct (verdicts_consume s d) as (evs & Hev & Hv).
  destruct (IH (consume ttl s d)) as (calls & Hvs & Hall).
  exists (evs :: calls). simpl. rewrite Hvs, Hv, <- app_assoc. by split; [|constructor].
Qed.

(** X4. A delivery writes under its own key only. The entry and the
    first-seen time of any other identifier are as before, unless the sweep
    of that delivery found the identifier overdue and deleted both; a body
    that does not decode leaves the whole store and the file as they are;
    and the only identifier that can gain an entry is the key of the
    delivery. *)
Theorem deliveries_are_isolated s d :
  (∀ k,
     key_of d ≠ Some k →
     (buffer (consume ttl s d) !! k = buffer s !! k
      ∧ buffer_ts (consume ttl s d) !! k = buffer_ts s !! k)
     ∨ (stale ttl (time_sweep (world d)) (buffer_ts s) k = true
        ∧ buffer (consume ttl s d) !! k = None
        ∧ buffer_ts (consume ttl s d) !! k = None))
  ∧ (key_of d = None →
     buffer (consume ttl s d) = buffer s
     ∧ buffer_ts (consume ttl s d) = buffer_ts s
     ∧ metric_log (consume ttl s d) = metric_log s)
  ∧ (∀ k, is_Some (buffer (consume ttl s d) !! k) →
          is_Some (buffer s !! k) ∨ key_of d = Some k).
Proof.
  assert (∀ k, key_of d ≠ Some k →
     (buffer (consume ttl s d) !! k = buffer s !! k
      ∧ buffer_ts (consume ttl s d) !! k = buffer_ts s !! k)
     ∨ (stale ttl (time_sweep (world d)) (buffer_ts s) k = true
        ∧ buffer (consume ttl s d) !! k = None
        ∧ buffer_ts (consume ttl s d) !! k = None)) as Hframe.
  { intros k Hk. unfold key_of in Hk.
    destruct (decode (payload d)) as [e|[k' v]] eqn:Hd.
    - left. by rewrite (consume_undecodable _ _ _ Hd).
    - apply (consume_foreign s d k k' v Hd). congruence. }
  split; [done|]. split.
  - unfold key_of. destruct (decode (payload d)) as [e|[k' v]] eqn:Hd; [|done].
    intros _. by rewrite (consume_undecodable _ _ _ Hd).
  - intros k Hin. destruct (decide (key_of d = Some k)) as [|Hne]; [by right|].
    left. destruct (Hframe k Hne) as [[Hb _]|(_ & Hb & _)]; rewrite Hb in Hin; [done|].
    by destruct Hin.
Qed.

(** X5. After a delivery that was acknowledged, no first-seen time whose age
    at the sweep of that delivery exceeds the TTL is left, and in a reachable
    state every entry has such a time: the store holds no overdue entry. *)
Theorem acknowledged_store_is_young s d :
  last (trace (consume ttl s d)) = Some (Acked (tag d)) →
  (∀ k ts, buffer_ts (consume ttl s d) !! k = Some ts →
           expired ttl (time_sweep (world d)) ts = false)
  ∧ (reachable ttl s →
     ∀ k, is_Some (buffer (consume ttl s d) !! k) →
          ∃ ts, buffer_ts (consume ttl s d) !! k = Some ts
                ∧ expired ttl (time_sweep (world d)) ts = false).
Proof.
  intros Hack.
  assert (∀ k ts, buffer_ts (consume ttl s d) !! k = Some ts →
                  expired ttl (time_sweep (world d)) ts = false) as Hyoung.
  { destruct (consume_cases s d)
      as [(e & _ & Hc)|[(k0 & v & _ & _ & Hc)|[(k0 & v & vo & _ & _ & _ & Hc)
                                              |(k0 & v & vo & _ & _ & _ & Hc)]]];
      rewrite Hc in Hack |- *; simpl in *; rewrite last_app in Hack;
      unfold answer in Hack; try destruct (ack_ok (world d)); simpl in Hack;
      try discriminate Hack.
    - intros k ts. rewrite keep_lookup. unfold stale.
      destruct (buffer_ts _ !! k) as [ts'|] eqn:Hk; [|done].
      destruct (expired ttl _ ts') eqn:He; [done|]. by intros [= <-].
    - intros k ts. rewrite keep_lookup. unfold stale.
      destruct (delete k0 _ !! k) as [ts'|] eqn:Hk; [|done].
      destruct (expired ttl _ ts') eqn:He; [done|]. by intros [= <-]. }
  split; [done|]. intros Hr k Hin.
  assert (consistent (consume ttl s d)) as Hc
    by (apply consistent_consume; by apply reachable_consistent).
  destruct (proj1 (Hc k) Hin) as [ts Hts]. exists ts. split; [done|]. by apply (Hyoung k).
Qed.

Lemma stale_keep now times k : stale ttl now (keep ttl now times times) k = false.
Proof.
  unfold stale at 1. rewrite keep_lookup. unfold stale.
  destruct (times !! k) as [ts|]; [|done]. by destruct (expired ttl now ts) eqn:He.
Qed.

(** X6. A second sweep at the same clock reading finds nothing to delete:
    it returns with the store and the file as the first sweep left them. *)
Theorem sweep_is_idempotent now s :
  ∃ s1 s2,
    cleanup_old_records ttl now s = (Return tt, s1)
    ∧ cleanup_old_records ttl now s1 = (Return tt, s2)
    ∧ overdue ttl now s1 = []
    ∧ buffer s2 = buffer s1 ∧ buffer_ts s2 = buffer_ts s1
    ∧ metric_log s2 = metric_log s1.
Proof.
  exists (swept ttl now s), (swept ttl now (swept ttl now s)).
  split; [apply cleanup_spec|]. split; [apply cleanup_spec|]. split.
  - destruct (overdue ttl now (swept ttl now s)) as [|[k ts] l] eqn:Ho; [done|].
    assert ((k, ts) ∈ overdue ttl now (swept ttl now s)) as Hin by (rewrite Ho; left).
    apply elem_of_overdue in Hin as [Hk He]. simpl in Hk.
    pose proof (stale_keep now (buffer_ts s) k) as Hst.
    unfold stale in Hst. rewrite Hk in Hst. congruence.
  - simpl. repeat split; apply map_eq; intros k;
      by rewrite keep_lookup, stale_keep.
Qed.

(** X7. A join that failed at the append is completed by the redelivery.
    When the append raised for a delivery whose value met the stored other
    side, the file has gained what the failed write left of the row:
    nothing when [open] raised, else a torn line. The same message
    delivered again, the append now going through, adds the whole line of
    the row after it, deletes the entry and calls [basic_ack], whatever the
    clock readings of the two deliveries. The row is once in the file as a
    whole line; when the failed write had put all the characters of the
    line in the file before it raised, the text of the file holds the line
    twice. *)
Theorem redelivery_completes_join s d d' k v vo :
  decode (payload d) = inr (k, v) →
  held s k (other (queue d)) = Some vo →
  append_ok (world d) = false →
  payload d' = payload d → queue d' = queue d →
  append_ok (world d') = true →
  let r := join_row k (queue d) v vo in
  let s1 := consume ttl s d in
  let s2 := consume ttl s1 d' in
  metric_log s1 = metric_log s ++ debris (sink (world d)) r
  ∧ metric_log s2 = metric_log s ++ debris (sink (world d)) r ++ [Whole r]
  ∧ buffer s2 !! k = None ∧ buffer_ts s2 !! k = None
  ∧ verdicts (trace s2)
    = verdicts (trace s) ++ [Nacked (tag d) true] ++ answer (world d') (tag d')
  ∧ (∀ written,
       sink (world d) = Write_raises written →
       (length (Disk.writerow (Disk.fields_of r)) ≤ written)%nat →
       Disk.text (metric_log s2)
       = Disk.text (metric_log s) ++ Disk.writerow (Disk.fields_of r)
           ++ Disk.writerow (Disk.fields_of r)).
Proof.
  intros Hd Hh Hok Hp Hq Hok' r s1 s2.
  assert (s1 = record (Nacked (tag d) true)
                 (littered (sink (world d)) r
                    (upserted (time_upsert (world d)) k (queue d) v s))) as Hs1
    by (by apply consume_io_error).
  assert (held s1 k (other (queue d')) = Some vo) as Hh'.
  { rewrite Hq, Hs1. unfold held. simpl.
    pose proof (held_upserted_other (time_upsert (world d)) k (queue d) v s) as Ho.
    unfold held in Ho, Hh. by rewrite Ho. }
  assert (decode (payload d') = inr (k, v)) as Hd' by (by rewrite Hp).
  assert (metric_log s1 = metric_log s ++ debris (sink (world d)) r) as Hl1.
  { rewrite Hs1. simpl. by rewrite upserted_log. }
  assert (metric_log s2 = metric_log s ++ debris (sink (world d)) r ++ [Whole r]) as Hl2.
  { unfold s2. rewrite (consume_join d' s1 k v vo Hd' Hh' Hok'). simpl.
    rewrite upserted_log, Hl1, Hq. by rewrite <- app_assoc. }
  assert (∀ written,
            sink (world d) = Write_raises written →
            (length (Disk.writerow (Disk.fields_of r)) ≤ written)%nat →
            Disk.text (metric_log s2)
            = Disk.text (metric_log s) ++ Disk.writerow (Disk.fields_of r)
                ++ Disk.writerow (Disk.fields_of r)) as Htext.
  { intros written Hw Hlen. rewrite Hl2, Hw. cbn [debris]. unfold Disk.text.
    rewrite !flat_map_app. cbn [flat_map Disk.chars].
    by rewrite take_ge, !app_nil_r by done. }
  assert (buffer s2 !! k = None ∧ buffer_ts s2 !! k = None
          ∧ verdicts (trace s2)
            = verdicts (trace s) ++ [Nacked (tag d) true] ++ answer (world d') (tag d'))
    as (Hb & Ht & Hv).
  { unfold s2. rewrite (consume_join d' s1 k v vo Hd' Hh' Hok'). simpl.
    rewrite upserted_trace, !keep_lookup, !lookup_delete_eq.
    rewrite Hs1. simpl. rewrite upserted_trace, !verdicts_app, verdicts_answer. simpl.
    rewrite !app_nil_r, <- !app_assoc.
    split; [by destruct (stale _ _ _ _)|]. split; [by destruct (stale _ _ _ _)|]. done. }
  done.
Qed.

End Engine.

(** * Connecting to the broker *)

Section Retrying.
Import Retry.
Context {conn : Type}.
Variable attempt : string → Z → nat → dial conn.
Variable sleep : Z → nat → option exn.
Variables (host : string) (port : Z).

Lemma refusals_snoc t n k :
  refusals t n (S k) = refusals t n k ++ [Dialed (n + k); Slept t].
Proof.
  unfold refusals. by rewrite seq_S, flat_map_app.
Qed.

Lemma refusals_cons t n k :
  refusals t n (S k) = Dialed n :: Slept t :: refusals t (S n) k.
Proof. done. Qed.

(** [k] passes that raise, each followed by a sleep that returns, take the
    loop [k] rounds further. *)
Lemma attempts_skip t k : ∀ todo n last done,
  (∀ j, (j < k)%nat → ∃ why, attempt host port (n + j) = Refused why) →
  (∀ j, (j < k)%nat → sleep t (n + j) = None) →
  attempts attempt sleep host port t (k + todo) n last done
  = attempts attempt sleep host port t todo (n + k)
      (match k with
       | O => last
       | S m => Some (last_reason attempt host port (n + k))
       end)
      (done ++ refusals t n k).
Proof.
  induction k as [|k IH]; intros todo n last done Href Hrest.
  { simpl. by rewrite Nat.add_0_r, app_nil_r. }
  destruct (Href O) as [why Hwhy]; [lia|]. rewrite Nat.add_0_r in Hwhy.
  pose proof (Hrest O) as Hnap. rewrite Nat.add_0_r in Hnap.
  simpl. rewrite Hwhy, Hnap by lia.
  rewrite IH.
  - replace (S n + k)%nat with (n + S k)%nat by lia.
    rewrite refusals_cons, <- app_assoc. simpl. f_equal.
    destruct k as [|k]; [|done].
    unfold last_reason. replace (n + 1)%nat with (S n) by lia. by rewrite Hwhy.
  - intros j Hj. replace (S n + j)%nat with (n + S j)%nat by lia. apply Href. lia.
  - intros j Hj. replace (S n + j)%nat with (n + S j)%nat by lia. apply Hrest. lia.
Qed.

(** X8. When the passes before pass [i] all raise, the sleep after each of
    them returns, and pass [i] connects, [i] being below [retries], the
    function returns the connection of pass [i]: it has made the passes 0
    to [i] and no other, and has slept [sleep_seconds] after each of the
    [i] failures and not after the success. *)
Theorem connects_at_first_success retries sleep_seconds i c :
  (i < Z.to_nat retries)%nat →
  all_refused attempt host port i →
  all_rested sleep sleep_seconds i →
  attempt host port i = Connected c →
  connect_with_retry attempt sleep host port retries sleep_seconds
  = (inr c, refusals sleep_seconds 0 i ++ [Dialed i]).
Proof.
  intros Hi Href Hrest Hc. unfold connect_with_retry.
  replace (Z.to_nat retries) with (i + S (Z.to_nat retries - S i))%nat by lia.
  rewrite attempts_skip;
    [|by intros j Hj; apply Href|by intros j Hj; apply Hrest].
  simpl. by rewrite Hc.
Qed.

(** X9. When all [retries] passes raise and the sleep after each of them
    returns, the function raises [RuntimeError] with the text of the last
    exception after the colon, having made exactly [retries] passes and
    slept after every one of them, the last included. With [retries <= 0]
    it makes no pass at all and the text ends in "None". *)
Theorem gives_up_after_retries retries sleep_seconds :
  all_refused attempt host port (Z.to_nat retries) →
  all_rested sleep sleep_seconds (Z.to_nat retries) →
  connect_with_retry attempt sleep host port retries sleep_seconds
  = (inl (RuntimeError ("Cannot connect to RabbitMQ: "
                          +:+ last_reason attempt host port (Z.to_nat retries))),
     refusals sleep_seconds 0 (Z.to_nat retries)).
Proof.
  intros Href Hrest. unfold connect_with_retry.
  replace (Z.to_nat retries) with (Z.to_nat retries + 0)%nat at 1 by lia.
  rewrite attempts_skip;
    [|by intros j Hj; apply Href|by intros j Hj; apply Hrest].
  simpl. by destruct (Z.to_nat retries).
Qed.

(** X10. A [time.sleep] that raises ends the function at once. When the
    passes up to pass [i] all raise, the sleeps before pass [i] return and
    the sleep after pass [i] raises [e], the function raises [e]: it makes
    no pass after pass [i], however many are left, and it does not come to
    its [RuntimeError]. *)
Theorem sleep_failure_stops_retrying retries sleep_seconds i why e :
  (i < Z.to_nat retries)%nat →
  all_refused attempt host port i →
  all_rested sleep sleep_seconds i →
  attempt host port i = Refused why →
  sleep sleep_seconds i = Some e →
  connect_with_retry attempt sleep host port retries sleep_seconds
  = (inl (Escaped e), refusals sleep_seconds 0 i ++ [Dialed i]).
Proof.
  intros Hi Href Hrest Hwhy Hnap. unfold connect_with_retry.
  replace (Z.to_nat retries) with (i + S (Z.to_nat retries - S i))%nat by lia.
  rewrite attempts_skip;
    [|by intros j Hj; apply Href|by intros j Hj; apply Hrest].
  simpl. by rewrite Hwhy, Hnap.
Qed.

Lemma dials_app l1 l2 : dials (l1 ++ l2) = (dials l1 + dials l2)%nat.
Proof.
  induction l1 as [|[n|t] l1 IH]; simpl; [done| |done]. by rewrite IH.
Qed.

Lemma slept_app l1 l2 : slept (l1 ++ l2) = slept l1 + slept l2.
Proof.
  induction l1 as [|[n|t] l1 IH]; simpl; [done|done|]. rewrite IH. lia.
Qed.

Lemma attempts_bounds t todo : ∀ n last_error done,
  let out := attempts attempt sleep host port t todo n last_error done in
  let unslept := match out.1 with
                 | inl (RuntimeError _) => 0
                 | inl (Escaped _) | inr _ => 1
                 end in
  (dials out.2 ≤ dials done + todo)%nat
  ∧ slept out.2
    = slept done + t * (Z.of_nat (dials out.2) - Z.of_nat (dials done) - unslept)
  ∧ Z.of_nat (dials done) + unslept ≤ Z.of_nat (dials out.2)
  ∧ (∀ c, out.1 = inr c →
          ∃ m, (n ≤ m < n + todo)%nat ∧ attempt host port m = Connected c
               ∧ last out.2 = Some (Dialed m))
  ∧ (∀ e, out.1 = inl (Escaped e) →
          ∃ m, (n ≤ m < n + todo)%nat ∧ sleep t m = Some e
               ∧ last out.2 = Some (Dialed m)).
Proof.
  induction todo as [|todo IH]; intros n last_error done; simpl.
  { split; [lia|]. split; [lia|]. split; [lia|]. split; done. }
  destruct (attempt host port n) as [c|why] eqn:Ha; simpl.
  - rewrite dials_app, slept_app. simpl. split; [lia|]. split; [lia|]. split; [lia|].
    split; [|done].
    intros c' [= <-]. exists n. rewrite last_snoc. split; [lia|done].
  - destruct (sleep t n) as [e|] eqn:Hnap; simpl.
    + rewrite dials_app, slept_app. simpl. split; [lia|]. split; [lia|]. split; [lia|].
      split; [done|].
      intros e' [= <-]. exists n. rewrite last_snoc. split; [lia|done].
    + specialize (IH (S n) (Some why) (done ++ [Dialed n; Slept t])).
      simpl in IH. destruct IH as (Hd & Hs & Hlow & Hc & He).
      rewrite dials_app, slept_app in *. simpl in *.
      split; [lia|]. split; [rewrite Hs; lia|]. split; [lia|]. split.
      * intros c Heq. destruct (Hc c Heq) as (m & Hm & Hac & Hl).
        exists m. split; [lia|done].
      * intros e Heq. destruct (He e Heq) as (m & Hm & Hac & Hl).
        exists m. split; [lia|done].
Qed.

(** X11. Whatever the passes and the sleeps do, the function makes at most
    [retries] passes and sleeps [sleep_seconds] once per pass that raised,
    but for a sleep that raised itself, and never after a pass that
    connected: at most [retries * sleep_seconds] seconds in all. A
    connection it returns is the one of the last pass it made, and an
    exception of [time.sleep] that it raises is the one of the sleep after
    the last pass it made. *)
Theorem retry_is_bounded retries sleep_seconds :
  let out := connect_with_retry attempt sleep host port retries sleep_seconds in
  let unslept := match out.1 with
                 | inl (RuntimeError _) => 0
                 | inl (Escaped _) | inr _ => 1
                 end in
  (dials out.2 ≤ Z.to_nat retries)%nat
  ∧ slept out.2 = sleep_seconds * (Z.of_nat (dials out.2) - unslept)
  ∧ (0 ≤ sleep_seconds → 0 ≤ slept out.2 ≤ sleep_seconds * Z.max 0 retries)
  ∧ (∀ c, out.1 = inr c →
          ∃ m, (m < Z.to_nat retries)%nat ∧ attempt host port m = Connected c
               ∧ last out.2 = Some (Dialed m))
  ∧ (∀ e, out.1 = inl (Escaped e) →
          ∃ m, (m < Z.to_nat retries)%nat ∧ sleep sleep_seconds m = Some e
               ∧ last out.2 = Some (Dialed m)).
Proof.
  intros out unslept. unfold unslept, out, connect_with_retry.
  destruct (attempts_bounds sleep_seconds (Z.to_nat retries) 0 None [])
    as (Hd & Hs & Hlow & Hc & He). simpl in *.
  split; [done|]. split; [rewrite Hs; lia|]. split; [|split].
  - intros Hpos. rewrite Hs.
    set (e := match (attempts _ _ _ _ _ _ _ _ _).1 with
              | inl (RuntimeError _) => 0
              | _ => 1
              end) in *.
    set (D := Z.of_nat (dials _)) in *.
    assert (0 ≤ e) by (unfold e; by repeat case_match).
    assert (D ≤ Z.max 0 retries) by lia.
    split.
    + apply Z.add_nonneg_nonneg; [done|]. apply Z.mul_nonneg_nonneg; lia.
    + rewrite Z.add_0_l. apply Z.mul_le_mono_nonneg_l; lia.
  - intros c Heq. destruct (Hc c Heq) as (m & Hm & Ha & Hl). exists m. split; [lia|done].
  - intros e Heq. destruct (He e Heq) as (m & Hm & Ha & Hl). exists m. split; [lia|done].
Qed.

End Retrying.

(** * The CSV file *)

Section Files.
Import Disk.

Lemma drop_until_slash_nil cs : drop_until_slash cs = [] ↔ slash ∉ cs.
Proof.
  induction cs as [|c cs IH]; cbn [drop_until_slash].
  - split; [intros _; apply not_elem_of_nil | done].
  - destruct (Ascii.eqb_spec c slash) as [->|Hne].
    + split; [done|]. intros H. destruct H. left.
    + rewrite IH, not_elem_of_cons. split; [by intros ?; split|by intros [_ ?]].
Qed.

Lemma drop_slashes_nil cs :
  drop_slashes cs = [] ↔ forallb (Ascii.eqb slash) cs = true.
Proof.
  induction cs as [|c cs IH]; [done|].
  cbn [drop_slashes forallb]. rewrite (Ascii.eqb_sym slash c).
  destruct (Ascii.eqb c slash); [done|]. split; done.
Qed.

Lemma forallb_rev {A} (f : A → bool) l : forallb f (rev l) = forallb f l.
Proof.
  induction l as [|x l IH]; [done|]. simpl.
  rewrite forallb_app, IH. simpl. rewrite andb_true_r. apply andb_comm.
Qed.

Lemma string_of_list_ascii_nil cs : string_of_list_ascii cs = EmptyString ↔ cs = [].
Proof. destruct cs; simpl; split; congruence. Qed.

(** [dirname] is empty exactly for a path without a slash. *)
Lemma dirname_empty p :
  dirname p = EmptyString ↔ slash ∉ list_ascii_of_string p.
Proof.
  unfold dirname. rewrite string_of_list_ascii_nil.
  set (cs := list_ascii_of_string p).
  assert (slash ∉ cs ↔ rev (drop_until_slash (rev cs)) = []) as ->.
  { trans (slash ∉ rev cs); [by rewrite !list_elem_of_In, <- in_rev|].
    rewrite <- drop_until_slash_nil.
    split; [by intros ->|]. intros H. apply (f_equal (@rev _)) in H.
    by rewrite rev_involutive in H. }
  set (head := rev (drop_until_slash (rev cs))).
  destruct (forallb (Ascii.eqb slash) head) eqn:Hall; [done|].
  split.
  - intros H. apply (f_equal (@rev _)) in H. rewrite rev_involutive in H. simpl in H.
    apply drop_slashes_nil in H. rewrite forallb_rev in H. congruence.
  - intros H. rewrite H in Hall. done.
Qed.

(** X12. [ensure_csv_with_header] never touches what is there: when [path]
    names a file or a directory, the node is the same afterwards, whether
    the call returns or raises and whatever [os.makedirs] and the write do;
    so once a call has returned, any later call, on any outcome, leaves the
    file as it is: no second header, no truncation. *)
Theorem ensure_keeps_existing :
  (∀ path mk wr n, n ≠ Missing → (ensure_csv_with_header path mk wr n).2 = n)
  ∧ (∀ path mk wr n path' mk' wr',
       (ensure_csv_with_header path mk wr n).1 = inr tt →
       (ensure_csv_with_header path' mk' wr' (ensure_csv_with_header path mk wr n).2).2
       = (ensure_csv_with_header path mk wr n).2).
Proof.
  assert (∀ path mk wr n, n ≠ Missing → (ensure_csv_with_header path mk wr n).2 = n)
    as Hkeep.
  { intros path mk wr n Hn. unfold ensure_csv_with_header, makedirs.
    destruct (dirname path); [done|].
    destruct mk as [[|]|e]; destruct n; simpl; done. }
  split; [done|]. intros path mk wr n path' mk' wr' Hret. apply Hkeep.
  revert Hret. unfold ensure_csv_with_header, makedirs.
  destruct (dirname path); [done|].
  destruct mk as [[|]|e]; destruct n; simpl; try done; by destruct wr.
Qed.

(** X13. When [path] has no slash, [os.path.dirname] gives the empty
    string, [os.makedirs] raises [FileNotFoundError], and
    [ensure_csv_with_header] raises it without creating anything. When the
    call returns, [path] has a slash and names something; if it named
    nothing before, it now names the directory just made or a file that
    holds the header line and nothing else. *)
Theorem ensure_outcomes path mk wr n :
  (slash ∉ list_ascii_of_string path →
   ensure_csv_with_header path mk wr n = (inl FileNotFoundError, n))
  ∧ ((ensure_csv_with_header path mk wr n).1 = inr tt →
     slash ∈ list_ascii_of_string path
     ∧ (ensure_csv_with_header path mk wr n).2 ≠ Missing
     ∧ (n = Missing →
        (mk = Made true ∧ (ensure_csv_with_header path mk wr n).2 = Directory)
        ∨ (mk = Made false ∧ wr = Written
           ∧ (ensure_csv_with_header path mk wr n).2
             = File (list_ascii_of_string "id,y_true,y_pred,absolute_error"
                       ++ [cr; lf])))).
Proof.
  split.
  - intros Hno. apply dirname_empty in Hno.
    unfold ensure_csv_with_header, makedirs. by rewrite Hno.
  - intros Hret.
    assert (slash ∈ list_ascii_of_string path) as Hin.
    { destruct (decide (slash ∈ list_ascii_of_string path)) as [|Hno]; [done|].
      apply dirname_empty in Hno. revert Hret.
      unfold ensure_csv_with_header, makedirs. by rewrite Hno. }
    split; [done|]. revert Hret. unfold ensure_csv_with_header, makedirs.
    destruct (dirname path); [done|].
    destruct mk as [[|]|e]; [| |done].
    + destruct n; simpl; [|done..]. intros _. split; [done|]. intros _. by left.
    + destruct n; simpl; [|done..]. destruct wr; simpl; [done..|].
      intros _. split; [done|]. intros _. by right.
Qed.

Lemma apply_file c o : ∃ c', apply (File c) o = File c' ∧ c `prefix_of` c'.
Proof.
  destruct o as [path mk wr|wr r]; simpl.
  - rewrite (proj1 ensure_keeps_existing) by done. by exists c.
  - unfold append_metric_row, write_line. destruct wr; simpl; eexists; split; try done.
    + by apply prefix_app_r.
    + by apply prefix_app_r.
Qed.

Lemma runs_extend ops c :
  ∃ c', foldl apply (File c) ops = File c' ∧ c `prefix_of` c'.
Proof.
  revert c. induction ops as [|o ops IH]; intros c; [by exists c|].
  destruct (apply_file c o) as (c1 & Heq & Hpre).
  destruct (IH c1) as (c' & Heq' & Hpre').
  exists c'. simpl. rewrite Heq. split; [done|]. by etrans.
Qed.

(** X14. Nothing the two functions do shortens or rewrites the file: after
    any run of calls of [ensure_csv_with_header] and [append_metric_row],
    with any outcomes, failed and torn writes included, [path] still names
    a file and what the file held before is the beginning of what it holds. *)
Theorem file_is_append_only ops c :
  ∃ c', foldl apply (File c) ops = File c' ∧ c `prefix_of` c'.
Proof. apply runs_extend. Qed.

(** X15. Appends that go through add the lines of their rows in order:
    on a file that holds [c] the result holds [c] followed by the lines;
    from nothing, after a call of [ensure_csv_with_header] that wrote the
    header, the file holds the header line followed by the lines. *)
Theorem appends_compose rows :
  (∀ c, foldl apply (File c) (List.map (Add Written) rows) = File (c ++ lines rows))
  ∧ (∀ path,
       slash ∈ list_ascii_of_string path →
       foldl apply Missing (Ensure path (Made false) Written :: List.map (Add Written) rows)
       = File (writerow header ++ lines rows)).
Proof.
  assert (∀ c, foldl apply (File c) (List.map (Add Written) rows) = File (c ++ lines rows))
    as Hfile.
  { induction rows as [|r rows IH]; intros c; simpl; [by rewrite app_nil_r|].
    rewrite IH. unfold lines. simpl. by rewrite <- app_assoc. }
  split; [done|]. intros path Hin. cbn [foldl].
  assert (apply Missing (Ensure path (Made false) Written) = File (writerow header)) as ->.
  { simpl. unfold ensure_csv_with_header, makedirs.
    destruct (dirname path) eqn:Hd; [|done].
    apply dirname_empty in Hd. done. }
  apply Hfile.
Qed.


(** X17. [append_metric_row] does not look for the header: when [path]
    names nothing (the file was removed, or never made), an append that
    goes through creates the file with the line of its row as first line,
    and whatever is called afterwards the file keeps starting with that
    line. Likewise a header write that fails after [written] bytes leaves a
    file with that much of the header, which later calls never complete. *)
Theorem missing_file_gets_no_header wr r written e path ops :
  slash ∈ list_ascii_of_string path →
  append_metric_row Written r Missing = (inr tt, File (writerow (fields_of r)))
  ∧ (∃ c', foldl apply Missing (Add Written r :: ops) = File c'
           ∧ writerow (fields_of r) `prefix_of` c')
  ∧ ensure_csv_with_header path (Made false) (Write_fails written e) Missing
    = (inl e, File (take written (writerow header)))
  ∧ (ensure_csv_with_header path (Made false) wr
       (File (take written (writerow header)))).2
    = File (take written (writerow header)).
Proof.
  intros Hin. split; [done|]. split; [|split].
  - simpl. apply runs_extend.
  - unfold ensure_csv_with_header, makedirs.
    destruct (dirname path) eqn:Hd; [by apply dirname_empty in Hd|done].
  - by rewrite (proj1 ensure_keeps_existing).
Qed.

End Files.

(** * The file of the callbacks and the file on disk *)

(** The append that the callbacks make and the append on the file
    agree. However the write ends, both return or both raise, and the
    content of the file on disk afterwards is the text of the lines that
    the state of the callbacks holds afterwards: the old text, followed by
    the line of the row when the append returned, by the characters
    written of it when the write raised, by nothing when [open] raised.
    The store is not touched. *)
Lemma append_matches_disk o e r s :
  let on_disk := Disk.append_metric_row (Disk.outcome_of o e) r
                   (Disk.File (Disk.text (metric_log s))) in
  let in_callback := append_metric_row o r s in
  on_disk.2 = Disk.File (Disk.text (metric_log in_callback.2))
  ∧ (in_callback.1 = Return tt ↔ on_disk.1 = inr tt)
  ∧ (in_callback.1 = Return tt ↔ o = Appends)
  ∧ metric_log in_callback.2
    = metric_log s ++ match o with
                      | Appends => [Whole r]
                      | Open_raises => []
                      | Write_raises written => [Torn written r]
                      end
  ∧ buffer in_callback.2 = buffer s
  ∧ buffer_ts in_callback.2 = buffer_ts s.
Proof.
  destruct o as [| |written]; simpl; unfold Disk.text;
    rewrite ?flat_map_app, ?app_nil_r; simpl; rewrite ?app_nil_r;
    repeat split; try done.
Qed.

(** * From a sample to its row *)

Section Samples.
Import Pipeline.
Context {rt : PyRuntime}.
Variable ttl : Z.
Variable predict : pyval → exn + float.
Variables (features_queue y_true_queue y_pred_queue : string).

Lemma join_either_order s w1 w2 t1 t2 id_true id_pred body_true body_pred vt vp :
  py_float body_true = inr vt → py_float body_pred = inr vp →
  py_str id_true = py_str id_pred →
  buffer s !! py_str id_true = None →
  expired ttl (time_sweep w1) (time_upsert w1) = false →
  append_ok w2 = true →
  let b_true := message id_true body_true in
  let b_pred := message id_pred body_pred in
  let r := Row (py_str id_true) vt vp (PrimFloat.abs (PrimFloat.sub vt vp)) in
  metric_log (run ttl (truth_first w1 w2 t1 t2 b_true b_pred) s) = metric_log s ++ [Whole r]
  ∧ metric_log (run ttl (predicted_first w1 w2 t1 t2 b_true b_pred) s)
    = metric_log s ++ [Whole r].
Proof.
  intros Hvt Hvp Hkey Hfresh Hexp Hok b_true b_pred r.
  assert (decode b_true = inr (py_str id_true, vt)) as Ht
    by (unfold b_true; by rewrite decode_message, Hvt).
  assert (decode b_pred = inr (py_str id_true, vp)) as Hp
    by (unfold b_pred; by rewrite decode_message, Hvp, Hkey).
  set (dT1 := Delivery Truth w1 t1 b_true). set (dP2 := Delivery Predicted w2 t2 b_pred).
  set (dP1 := Delivery Predicted w1 t1 b_pred). set (dT2 := Delivery Truth w2 t2 b_true).
  destruct (run_join ttl s dT1 [] dP2 _ vt vp Hfresh Ht Hp) as (_ & _ & Hl1 & _);
    [done|constructor|by repeat constructor|done|].
  destruct (run_join ttl s dP1 [] dT2 _ vp vt Hfresh Hp Ht) as (_ & _ & Hl2 & _);
    [done|constructor|by repeat constructor|done|].
  destruct (consume_first ttl s dT1 _ vt Hfresh Ht Hexp) as [_ Hb1].
  destruct (consume_first ttl s dP1 _ vp Hfresh Hp Hexp) as [_ Hb2].
  simpl in Hl1, Hl2. rewrite Hb1 in Hl1. rewrite Hb2 in Hl2. done.
Qed.

(** X18. For every delivery the predictor gets at most one message to the
    broker, on the queue of the predictions, and then answers the delivery:
    with a [basic_ack] that returns, with a [basic_nack] with
    [requeue=True], or with a [basic_ack] that raises and the [basic_nack]
    of the handler after it. A message it publishes is the prediction for
    the features of the delivery under the id of the delivery, untouched,
    and the metric service decodes it to the key [str(id)] and the
    predicted value: a prediction is never rejected downstream. It calls
    [basic_ack] only after a publish that returned; when the message is
    not a dict with an id and a body that the model accepts, it publishes
    nothing and calls [basic_nack]; and it publishes and yet requeues the
    delivery exactly when [basic_ack] raises or [basic_publish] raises
    with the message sent. *)
Theorem prediction_is_accepted publish ack_ok delivery_tag b :
  let ws := on_message predict y_pred_queue publish ack_ok delivery_tag b in
  (published ws = []
   ∨ ∃ message message_id features p,
       b = Document message
       ∧ py_getitem message "id" = inr message_id
       ∧ py_getitem message "body" = inr features
       ∧ predict features = inr p
       ∧ published ws
         = [(y_pred_queue, VDict [("id", message_id); ("body", VFloat p)])]
       ∧ decode (Document (VDict [("id", message_id); ("body", VFloat p)]))
         = inr (py_str message_id, p))
  ∧ (replies ws = [Ack delivery_tag]
     ∨ replies ws = [Nack delivery_tag true]
     ∨ replies ws = [Ack_raises delivery_tag; Nack delivery_tag true])
  ∧ ws = List.map (λ qd, Publish qd.1 qd.2) (published ws) ++ replies ws
  ∧ (replies ws = [Ack delivery_tag]
     ↔ (∃ doc, prediction predict b = inr doc) ∧ publish = Publishes ∧ ack_ok = true)
  ∧ ((∃ e, prediction predict b = inl e) →
     ws = [Nack delivery_tag true])
  ∧ (published ws ≠ [] ∧ Nack delivery_tag true ∈ ws
     ↔ (∃ doc, prediction predict b = inr doc)
       ∧ (publish = Publish_raises true ∨ (publish = Publishes ∧ ack_ok = false))).
Proof.
  intros ws. unfold ws, on_message.
  destruct (prediction predict b) as [e|doc] eqn:Hpred.
  { simpl. split; [by left|]. split; [auto|]. split; [done|]. split.
    - split; [done|]. by intros [[? ?] _].
    - split; [done|]. split; [by intros [? _]|]. by intros [[? ?] _]. }
  assert (∃ message message_id features p,
            b = Document message
            ∧ py_getitem message "id" = inr message_id
            ∧ py_getitem message "body" = inr features
            ∧ predict features = inr p
            ∧ doc = VDict [("id", message_id); ("body", VFloat p)])
    as (message & message_id & features & p & -> & Hid & Hbody & Hp & ->).
  { unfold prediction in Hpred. destruct b as [|message]; [done|].
    destruct (py_getitem message "id") as [?|message_id] eqn:Hid; [done|].
    destruct (py_getitem message "body") as [?|features] eqn:Hbody; [done|].
    destruct (predict features) as [?|p] eqn:Hp; [done|].
    exists message, message_id, features, p. by simplify_eq. }
  assert (Nack delivery_tag true ∈ [Nack delivery_tag true]) as Hin by left.
  assert (∀ q doc, Nack delivery_tag true ∈ [Publish q doc; Nack delivery_tag true])
    as Hin2 by (intros; right; left).
  assert (∀ q doc,
            Nack delivery_tag true
            ∈ [Publish q doc; Ack_raises delivery_tag; Nack delivery_tag true])
    as Hin3 by (intros; right; right; left).
  assert (∀ q doc, Nack delivery_tag true ∉ [Publish q doc; Ack delivery_tag]) as Hout.
  { intros q doc H. apply elem_of_cons in H as [H|H]; [done|].
    apply elem_of_cons in H as [H|H]; [done|]. by apply elem_of_nil in H. }
  split.
  { destruct publish as [|[|]], ack_ok; simpl; try (by left);
      right; exists message, message_id, features, p; by rewrite Hid, Hbody. }
  split; [destruct publish as [|[|]], ack_ok; simpl; auto|].
  split; [by destruct publish as [|[|]], ack_ok|].
  split.
  { destruct publish as [|[|]], ack_ok; simpl; split; try done; eauto;
      by intros (_ & ? & ?). }
  split; [by intros [? ?]|].
  destruct publish as [|[|]], ack_ok; simpl; split; try (by intros [? ?]);
    try (by intros (_ & [?|[? ?]])); eauto.
  intros [_ Hn]. by apply Hout in Hn.
Qed.

(** X19. One sample, one row. The generator publishes the features and
    the truth of a sample under one id, a float timestamp. When the model
    predicts [p] for the features and the publish returns, the predictor
    publishes one prediction, whether its [basic_ack] returns or not;
    delivered to the metric service with the truth message, in either order
    (key new, entry not overdue at the first sweep, append going through),
    it gives exactly the row [repr(id), y, p, |y - p|]. *)
Theorem sample_gives_one_row s message_id x y p w1 w2 ack_ok t t1 t2 :
  predict (VList (List.map VFloat x)) = inr p →
  buffer s !! PyFloat.repr message_id = None →
  expired ttl (time_sweep w1) (time_upsert w1) = false →
  append_ok w2 = true →
  ∃ doc_x doc_true doc_pred,
    turn features_queue y_true_queue message_id x y
    = [Publish features_queue doc_x; Publish y_true_queue doc_true]
    ∧ on_message predict y_pred_queue Publishes ack_ok t (Document doc_x)
      = Publish y_pred_queue doc_pred :: acknowledge ack_ok t
    ∧ let r := Row (PyFloat.repr message_id) y p (PrimFloat.abs (PrimFloat.sub y p)) in
      metric_log (run ttl (truth_first w1 w2 t1 t2 (Document doc_true) (Document doc_pred)) s)
      = metric_log s ++ [Whole r]
      ∧ metric_log (run ttl (predicted_first w1 w2 t1 t2 (Document doc_true) (Document doc_pred)) s)
        = metric_log s ++ [Whole r].
Proof.
  intros Hp Hfresh Hexp Hok.
  exists (message_features message_id x), (message_y_true message_id y),
    (VDict [("id", VFloat message_id); ("body", VFloat p)]).
  split; [done|]. split.
  - unfold on_message, prediction, message_features. simpl. by rewrite Hp.
  - apply (join_either_order s w1 w2 t1 t2 (VFloat message_id) (VFloat message_id)
             (VFloat y) (VFloat p) y p); done.
Qed.

End Samples.

(** * The theorems at concrete inputs *)

(** The runtime of these inputs is the ASCII one. *)
#[local] Existing Instance ascii_runtime.

Lemma join_completeness_witness :
  let s := initial in
  let d1 := deliver Truth 0 1 (VFloat 0x1.09a0666666666p+14) 142 in
  let d2 := deliver Predicted 5 2 (VFloat 0x1.09a0666666666p+14) 138.5 in
  let r := join_row "17000.1" Predicted 138.5 142 in
  metric_log (consume 600 (consume 600 s d1) d2) = metric_log (consume 600 s d1) ++ [Whole r]
  ∧ rows_of "17000.1" (metric_log (run 600 (d1 :: [] ++ [d2]) s))
    = rows_of "17000.1" (metric_log s) ++ [Whole r].
Proof.
  intros s d1 d2 r. split.
  - refine (proj1 (proj1 (@join_completeness ascii_runtime 600) (consume 600 s d1) d2
                     "17000.1" 138.5%float 142%float _ _ _)); vm_compute; reflexivity.
  - refine (proj1 (proj2 (proj2
      (proj1 (proj2 (@join_completeness ascii_runtime 600)) s d1 [] d2 "17000.1"
         142%float 138.5%float _ _ _ _ _ _ _)))).
    + reflexivity.
    + vm_compute; reflexivity.
    + vm_compute; reflexivity.
    + reflexivity.
    + constructor.
    + repeat constructor.
    + reflexivity.
Defined.

Lemma ttl_eviction_witness :
  let s := run 600 scenario_B initial in
  let s0 := swept 600 601 s in
  let mid := [deliver Predicted 650 2 (VStr "Z") 1] in
  let d := deliver Predicted 700 3 (VStr "X") 9 in
  let s' := run 600 mid s0 in
  let s1 := upserted 700 "X" Predicted 9 s' in
  (cleanup_old_records 600 601 s = (Return tt, s0)
   ∧ (∀ k e, buffer s !! k = Some e →
        ∃ ts, buffer_ts s !! k = Some ts
              ∧ buffer s0 !! k = (if expired 600 601 ts then None else Some e)
              ∧ buffer_ts s0 !! k = (if expired 600 601 ts then None else Some ts))
   ∧ (∀ k, buffer s !! k = None → buffer s0 !! k = None ∧ buffer_ts s0 !! k = None)
   ∧ metric_log s0 = metric_log s)
  ∧ (buffer s' !! "X" = None
     ∧ upsert 700 "X" Predicted 9 s' = (Return tt, s1)
     ∧ buffer s1 !! "X" = Some (Entry None (Some 9%float))
     ∧ buffer_ts s1 !! "X" = Some 700%float
     ∧ try_finalize Appends "X" s1 = (Return tt, s1)
     ∧ metric_log (consume 600 s' d) = metric_log s').
Proof.
  intros s s0 mid d s' s1.
  assert (reachable 600 s) as Hr by (apply reachable_run; constructor).
  split.
  - exact (proj1 (@ttl_eviction ascii_runtime 600) s 601%float Hr).
  - refine (proj1 (proj2 (@ttl_eviction ascii_runtime 600)) s0 mid d "X" 9%float _ _ _).
    + reflexivity.
    + repeat constructor. intros H. vm_compute in H. discriminate H.
    + reflexivity.
Defined.

(** C3 as it is stated fails in two ways. First, when the identifier
    already has an entry: "Y" holds the truth value 3.0; the truth value 4.0
    followed by the predicted value 5.0 gives the row ("Y", 4.0, 5.0, 1.0)
    and an empty store, the reverse order gives the row ("Y", 3.0, 5.0, 2.0)
    and leaves an entry behind. Second, when the sweep that follows the first
    delivery evicts the entry it has just made (TTL 0, the clock of the first
    callback one second further at its sweep than at its upsert): each order
    leaves the entry of its second message. *)
Lemma order_matters :
  let w1 := Env 1 1 Appends true in
  let w2 := Env 2 2 Appends true in
  let b_true := message (VStr "Y") (VFloat 4) in
  let b_pred := message (VStr "Y") (VFloat 5) in
  let s := run 600 [deliver Truth 0 1 (VStr "Y") 3] initial in
  let s_tp := run 600 (truth_first w1 w2 2 3 b_true b_pred) s in
  let s_pt := run 600 (predicted_first w1 w2 2 3 b_true b_pred) s in
  let u1 := Env 1 2 Appends true in
  let u2 := Env 3 3 Appends true in
  let z_tp := run 0 (truth_first u1 u2 1 2 b_true b_pred) initial in
  let z_pt := run 0 (predicted_first u1 u2 1 2 b_true b_pred) initial in
  buffer s !! "Y" = Some (Entry (Some 3%float) None)
  ∧ metric_log s_tp ≠ metric_log s_pt
  ∧ buffer s_tp ≠ buffer s_pt
  ∧ ¬ same_outcome s_tp s_pt
  ∧ ¬ same_outcome z_tp z_pt.
Proof.
  intros w1 w2 b_true b_pred s s_tp s_pt u1 u2 z_tp z_pt.
  assert (metric_log s_tp ≠ metric_log s_pt) as Hlog.
  { intros H.
    apply (f_equal (λ l, match l with
                         | ln :: _ => PrimFloat.eqb (row_y_true (row_of ln)) 4
                         | [] => false
                         end)) in H.
    vm_compute in H. discriminate H. }
  assert (buffer s_tp ≠ buffer s_pt) as Hbuf.
  { intros H. apply (f_equal (λ m, m !! "Y")) in H. vm_compute in H. discriminate H. }
  split; [by vm_compute|]. split; [done|]. split; [done|].
  split; [by intros (H & _)|].
  intros (H & _). apply (f_equal (λ m, m !! "Y" ≫= y_true)) in H.
  vm_compute in H. discriminate H.
Qed.

Lemma order_independence_fresh_witness :
  let w1 := Env 0 0 Appends true in
  let w2 := Env 5 5 Appends true in
  let b_true := message (VStr "Y") (VFloat 4) in
  let b_pred := message (VStr "Y") (VFloat 5) in
  let s_tp := run 600 (truth_first w1 w2 1 2 b_true b_pred) initial in
  let s_pt := run 600 (predicted_first w1 w2 1 2 b_true b_pred) initial in
  same_outcome s_tp s_pt
  ∧ (append_ok w2 = true →
     metric_log s_tp
     = metric_log initial ++ [Whole (Row "Y" 4 5 (PrimFloat.abs (PrimFloat.sub 4 5)))]
     ∧ buffer s_tp !! "Y" = None).
Proof.
  intros w1 w2 b_true b_pred.
  apply (@order_independence_fresh ascii_runtime 600 initial "Y" 4%float 5%float
           w1 w2 1 2 b_true b_pred); reflexivity.
Defined.

Lemma idempotent_overwrite_witness :
  let d1 := deliver Predicted 0 1 (VStr "Y") 5 in
  let dup := deliver Predicted 1 2 (VStr "Y") 5 in
  let d2 := deliver Truth 2 3 (VStr "Y") 4 in
  let s1 := consume 600 initial d1 in
  (let s' := upserted 1 "Y" Predicted 5 s1 in
   upsert 1 "Y" Predicted 5 s1 = (Return tt, s')
   ∧ buffer s' = <["Y" := set_side Predicted 5 (Entry None (Some 5%float))]> (buffer s1)
   ∧ dom (buffer s') = dom (buffer s1)
   ∧ stored Predicted (set_side Predicted 5 (Entry None (Some 5%float))) = Some 5%float
   ∧ stored (other Predicted) (set_side Predicted 5 (Entry None (Some 5%float)))
     = stored (other Predicted) (Entry None (Some 5%float))
   ∧ buffer_ts s' = buffer_ts s1
   ∧ metric_log s' = metric_log s1)
  ∧ (waits (consume 600 s1 dup) "Y" (queue dup) 5 0
     ∧ metric_log (consume 600 s1 dup) = metric_log s1)
  ∧ (rows_of "Y" (metric_log (run 600 (d1 :: [dup] ++ [d2]) initial))
     = rows_of "Y" (metric_log initial)
         ++ [Whole (join_row "Y" (queue d2) 4 (latest "Y" (queue d1) [dup] 5))]
     ∧ buffer_ts (run 600 (d1 :: [dup]) initial) !! "Y" = Some (time_upsert (world d1))
     ∧ buffer (run 600 (d1 :: [dup] ++ [d2]) initial) !! "Y" = None).
Proof.
  intros d1 dup d2 s1.
  destruct (@idempotent_overwrite ascii_runtime 600) as (H1 & H2 & H3 & _).
  split; [|split].
  - by apply (H1 s1 1%float "Y" Predicted 5%float (Entry None (Some 5%float))).
  - apply (H2 s1 dup "Y" 5%float 5%float 0%float); by vm_compute.
  - apply (H3 initial d1 [dup] d2 "Y" 5%float 4%float); try reflexivity.
    + repeat constructor. intros [_ H]. discriminate H.
    + by repeat constructor.
Defined.

Lemma no_premature_finalize_witness :
  let s := run 600 scenario_B initial in
  let ds := [deliver Truth 100 2 (VStr "X") 11; deliver Predicted 200 3 (VStr "Z") 7;
             deliver Truth 300 4 (VStr "X") 12] in
  try_finalize Appends "X" s = (Return tt, s)
  ∧ rows_of "X" (metric_log (run 600 ds s)) = rows_of "X" (metric_log s)
  ∧ held (run 600 ds s) "X" (other Truth) = None.
Proof.
  intros s ds.
  destruct (@no_premature_finalize ascii_runtime 600) as (H1 & H2).
  split.
  - apply H1. right. exists (Entry (Some 10%float) None).
    split; [reflexivity | right; reflexivity].
  - apply (H2 s "X" Truth ds); [reflexivity|].
    repeat constructor; intros [Hk Hq]; vm_compute in Hk, Hq; congruence.
Defined.

Lemma decode_failure_requeues_witness :
  let s := run 600 scenario_B initial in
  let b := message (VInt 7) (VStr "abc") in
  let s' := record (Nacked 2 true) s in
  on_y_true 600 (Env 1 1 Appends true) 2 b s = (Return tt, s')
  ∧ on_y_pred 600 (Env 1 1 Appends true) 2 b s = (Return tt, s')
  ∧ buffer s' = buffer s
  ∧ buffer_ts s' = buffer_ts s
  ∧ metric_log s' = metric_log s
  ∧ trace s' = trace s ++ [Nacked 2 true].
Proof.
  intros s b.
  apply (@decode_failure_requeues ascii_runtime 600 s (Env 1 1 Appends true) 2 b).
  apply (not_a_number _ (VStr "abc") ValueError); reflexivity.
Defined.

Lemma sink_failure_keeps_entry_witness :
  let s := run 600 [deliver Truth 0 1 (VStr "Y") 4] initial in
  let d := Delivery Predicted (Env 1 1 (Write_raises 4) true) 2
             (message (VStr "Y") (VFloat 5)) in
  let s1 := upserted 1 "Y" Predicted 5 s in
  let s' := consume 600 s d in
  let r := Row "Y" 4 5 1 in
  try_finalize (Write_raises 4) "Y" s1 = (Raise OSError, littered (Write_raises 4) r s1)
  ∧ callback 600 d s = (Return tt, s')
  ∧ held s' "Y" Predicted = Some 5%float
  ∧ held s' "Y" Truth = Some 4%float
  ∧ (∃ e, buffer s !! "Y" = Some e ∧ buffer s' = <["Y" := set_side Predicted 5 e]> (buffer s))
  ∧ buffer_ts s' = buffer_ts s
  ∧ metric_log s' = metric_log s ++ [Torn 4 r]
  ∧ (sink (world d) = Open_raises → metric_log s' = metric_log s)
  ∧ trace s' = trace s ++ [Upserted "Y" Predicted 5; Nacked 2 true].
Proof.
  intros s d.
  apply (@sink_failure_keeps_entry ascii_runtime 600 s d "Y" 5%float 4%float);
    reflexivity.
Defined.

(** C7 as it is stated fails when [basic_ack] raises. The upsert, the
    finalize attempt and the sweep of this delivery all return; [basic_ack]
    is called and raises inside the [try] block, and the handler calls
    [basic_nack] with [requeue=True] on the same delivery tag: the delivery
    gets two answers, an acknowledgement and a rejection. *)
Lemma ack_then_nack :
  let d := Delivery Truth (Env 0 0 Appends false) 1 (message (VStr "Y") (VFloat 3)) in
  let s' := consume 600 initial d in
  chain 600 Truth (world d) "Y" 3 initial
  = (Return tt, swept 600 0 (upserted 0 "Y" Truth 3 initial))
  ∧ trace s' = [Upserted "Y" Truth 3; Swept 0 []; Ack_raised 1; Nacked 1 true]
  ∧ verdicts (trace s') = [Ack_raised 1; Nacked 1 true]
  ∧ ¬ ∃ verdict, verdicts (trace s') = [verdict].
Proof.
  intros d s'.
  assert (verdicts (trace s') = [Ack_raised 1; Nacked 1 true]) as Hv by (by vm_compute).
  split; [by vm_compute|]. split; [by vm_compute|]. split; [done|].
  intros [verdict H]. rewrite Hv in H. discriminate H.
Qed.

Lemma entry_lifecycle_witness :
  let s := run 600 scenario_C initial in
  consistent s
  ∧ (∀ k, lifecycle k (trace s) = story 600 k scenario_C initial
          ∧ (is_Some (buffer s !! k) ↔ pending (story 600 k scenario_C initial) = true)
          ∧ orderly (story 600 k scenario_C initial) = true)
  ∧ paired (trace s) = true
  ∧ Forall (sweep_honest 600) (trace s)
  ∧ story 600 "Y" scenario_C initial = [Arrival; Arrival; Arrival; Finalize]
  ∧ buffer s !! "Y" = None.
Proof.
  intros s.
  destruct (@entry_lifecycle ascii_runtime 600 scenario_C) as (_ & H1 & H2 & H3 & H4 & _).
  split; [exact H1|]. split; [exact H2|]. split; [exact H3|]. split; [exact H4|].
  split; vm_compute; reflexivity.
Defined.

Lemma key_is_str_of_id_witness :
  let w1 := Env 0 0 Appends true in
  let w2 := Env 1 1 Appends true in
  let b_true := message (VInt 5) (VFloat 4) in
  let b_pred := message (VStr "5") (VFloat 6) in
  let r := Row (py_str (VInt 5)) 4 6 (PrimFloat.abs (PrimFloat.sub 4 6)) in
  (∃ msg id_field,
     b_true = Document msg ∧ py_getitem msg "id" = inr id_field
     ∧ "5" = py_str id_field)
  ∧ (metric_log (run 600 (truth_first w1 w2 1 2 b_true b_pred) initial)
     = metric_log initial ++ [Whole r]
     ∧ metric_log (run 600 (predicted_first w1 w2 1 2 b_true b_pred) initial)
       = metric_log initial ++ [Whole r])
  ∧ (let b_float := message (VFloat 5) (VFloat 6) in
     metric_log (run 600 (truth_first w1 w2 1 2 b_true b_float) initial)
     = metric_log initial
     ∧ metric_log (run 600 (predicted_first w1 w2 1 2 b_true b_float) initial)
       = metric_log initial).
Proof.
  intros w1 w2 b_true b_pred r.
  destruct (@key_is_str_of_id ascii_runtime 600) as (H1 & H2 & H3 & _).
  split; [|split].
  - by apply (H1 b_true "5" 4%float).
  - by apply (H2 initial w1 w2 1 2 (VInt 5) (VStr "5") (VFloat 4) (VFloat 6)
                4%float 6%float).
  - apply (H3 initial w1 w2 1 2 (VInt 5) (VFloat 5) (VFloat 4) (VFloat 6)
                4%float 6%float); try reflexivity.
    intros H. vm_compute in H. discriminate H.
Defined.

(** ** Further properties at concrete inputs *)

Lemma rows_are_sound_witness :
  Forall sound_row (metric_log (run 600 scenario_A initial)).
Proof.
  apply (@rows_are_sound ascii_runtime 600).
  apply reachable_run. constructor.
Defined.

Lemma deliveries_are_isolated_witness :
  let s := run 600 [deliver Truth 0 1 (VStr "Y") 3] initial in
  let d := deliver Predicted 5 2 (VStr "Z") 1 in
  ((buffer (consume 600 s d) !! "Y" = buffer s !! "Y"
    ∧ buffer_ts (consume 600 s d) !! "Y" = buffer_ts s !! "Y")
   ∨ (stale 600 (time_sweep (world d)) (buffer_ts s) "Y" = true
      ∧ buffer (consume 600 s d) !! "Y" = None
      ∧ buffer_ts (consume 600 s d) !! "Y" = None))
  ∧ (is_Some (buffer s !! "Z") ∨ key_of d = Some "Z").
Proof.
  intros s d. split.
  - apply (proj1 (@deliveries_are_isolated ascii_runtime 600 s d) "Y").
    intros H. vm_compute in H. discriminate H.
  - apply (proj2 (proj2 (@deliveries_are_isolated ascii_runtime 600 s d)) "Z").
    eexists. vm_compute. reflexivity.
Defined.

Lemma acknowledged_store_is_young_witness :
  let s := run 600 [deliver Truth 0 1 (VStr "Y") 3] initial in
  let d := deliver Predicted 700 2 (VStr "Z") 1 in
  (∀ k ts, buffer_ts (consume 600 s d) !! k = Some ts → expired 600 700 ts = false)
  ∧ (reachable 600 s →
     ∀ k, is_Some (buffer (consume 600 s d) !! k) →
          ∃ ts, buffer_ts (consume 600 s d) !! k = Some ts
                ∧ expired 600 700 ts = false).
Proof.
  intros s d.
  apply (@acknowledged_store_is_young ascii_runtime 600 s d).
  vm_compute. reflexivity.
Defined.

Lemma redelivery_completes_join_witness :
  let s := run 600 [deliver Truth 0 1 (VStr "Y") 4] initial in
  let d := Delivery Predicted (Env 1 1 (Write_raises 100) true) 2
             (message (VStr "Y") (VFloat 5)) in
  let d' := Delivery Predicted (Env 2 2 Appends true) 3 (message (VStr "Y") (VFloat 5)) in
  let r := Row "Y" 4 5 1 in
  let s1 := consume 600 s d in
  let s2 := consume 600 s1 d' in
  metric_log s1 = metric_log s ++ [Torn 100 r]
  ∧ metric_log s2 = metric_log s ++ [Torn 100 r; Whole r]
  ∧ buffer s2 !! "Y" = None ∧ buffer_ts s2 !! "Y" = None
  ∧ verdicts (trace s2) = verdicts (trace s) ++ [Nacked 2 true; Acked 3]
  ∧ Disk.text (metric_log s2)
    = Disk.text (metric_log s) ++ Disk.writerow (Disk.fields_of r)
        ++ Disk.writerow (Disk.fields_of r).
Proof.
  intros s d d' r s1 s2.
  destruct (@redelivery_completes_join ascii_runtime 600 s d d' "Y" 5%float 4%float)
    as (H1 & H2 & H3 & H4 & H5 & H6); try (vm_compute; reflexivity).
  split; [exact H1|]. split; [exact H2|]. split; [exact H3|]. split; [exact H4|].
  split; [exact H5|]. apply (H6 100%nat); [reflexivity|]. vm_compute. lia.
Defined.

Lemma connects_at_first_success_witness :
  Retry.connect_with_retry third_time checked_sleep "localhost" 5672 60 2
  = (inr 2%nat, Retry.refusals 2 0 2 ++ [Retry.Dialed 2]).
Proof.
  apply (connects_at_first_success third_time checked_sleep "localhost" 5672 60 2 2 2%nat).
  - vm_compute. lia.
  - intros j Hj. exists "refused". destruct j as [|[|j]]; [reflexivity|reflexivity|lia].
  - intros j Hj. reflexivity.
  - reflexivity.
Defined.

Lemma gives_up_after_retries_witness :
  Retry.connect_with_retry never checked_sleep "localhost" 5672 3 2
  = (inl (Retry.RuntimeError "Cannot connect to RabbitMQ: refused"),
     Retry.refusals 2 0 3).
Proof.
  apply (gives_up_after_retries never checked_sleep "localhost" 5672 3 2).
  - intros j Hj. exists "refused". reflexivity.
  - intros j Hj. reflexivity.
Defined.

Lemma sleep_failure_stops_retrying_witness :
  Retry.connect_with_retry never checked_sleep "localhost" 5672 60 (-1)
  = (inl (Retry.Escaped ValueError), [Retry.Dialed 0])
  ∧ Retry.connect_with_retry never checked_sleep "localhost" 5672 60 (10 ^ 10)
    = (inl (Retry.Escaped OverflowError), [Retry.Dialed 0]).
Proof.
  split.
  - apply (sleep_failure_stops_retrying never checked_sleep "localhost" 5672 60 (-1)
             0 "refused" ValueError).
    + vm_compute. lia.
    + intros j Hj. lia.
    + intros j Hj. lia.
    + reflexivity.
    + reflexivity.
  - apply (sleep_failure_stops_retrying never checked_sleep "localhost" 5672 60 (10 ^ 10)
             0 "refused" OverflowError).
    + vm_compute. lia.
    + intros j Hj. lia.
    + intros j Hj. lia.
    + reflexivity.
    + reflexivity.
Defined.

Lemma retry_is_bounded_witness :
  let out := Retry.connect_with_retry third_time checked_sleep "localhost" 5672 60 2 in
  (Retry.dials out.2 ≤ 60)%nat
  ∧ Retry.slept out.2 = 4
  ∧ 0 ≤ Retry.slept out.2 ≤ 120
  ∧ ∃ m, (m < 60)%nat ∧ third_time "localhost" 5672 m = Retry.Connected 2%nat
         ∧ last out.2 = Some (Retry.Dialed m).
Proof.
  intros out.
  destruct (retry_is_bounded third_time checked_sleep "localhost" 5672 60 2)
    as (H1 & H2 & H3 & H4 & _).
  split; [exact H1|]. split; [exact H2|]. split; [apply H3; lia|].
  apply (H4 2%nat). reflexivity.
Defined.

Lemma ensure_keeps_existing_witness :
  let c := Disk.writerow Disk.header ++ Disk.writerow ["a"; "1.0"; "2.0"; "1.0"] in
  (Disk.ensure_csv_with_header "logs/metric_log.csv" (Disk.Made false) Disk.Written
     (Disk.File c)).2 = Disk.File c
  ∧ (Disk.ensure_csv_with_header "logs/metric_log.csv" (Disk.Made false) Disk.Written
       (Disk.ensure_csv_with_header "logs/metric_log.csv" (Disk.Made true) Disk.Written
          Disk.Directory).2).2
    = (Disk.ensure_csv_with_header "logs/metric_log.csv" (Disk.Made true) Disk.Written
         Disk.Directory).2.
Proof.
  intros c. split.
  - apply (proj1 ensure_keeps_existing). discriminate.
  - apply (proj2 ensure_keeps_existing). reflexivity.
Defined.

Lemma ensure_outcomes_witness :
  Disk.ensure_csv_with_header "metric_log.csv" (Disk.Made false) Disk.Written Disk.Missing
  = (inl Disk.FileNotFoundError, Disk.Missing)
  ∧ Disk.slash ∈ list_ascii_of_string "logs/metric_log.csv"
  ∧ (Disk.ensure_csv_with_header "logs/metric_log.csv" (Disk.Made false) Disk.Written
       Disk.Missing).2 ≠ Disk.Missing.
Proof.
  split.
  - apply (proj1 (ensure_outcomes "metric_log.csv" (Disk.Made false) Disk.Written
                    Disk.Missing)).
    intros H. vm_compute in H. by repeat (apply elem_of_cons in H as [H|H]; [discriminate H|]);
      apply elem_of_nil in H.
  - destruct (proj2 (ensure_outcomes "logs/metric_log.csv" (Disk.Made false) Disk.Written
                       Disk.Missing)) as (H1 & H2 & _); [reflexivity|].
    split; [exact H1|exact H2].
Defined.

Lemma appends_compose_witness :
  let r := Row "a" 1 2 1 in
  foldl Disk.apply Disk.Missing
    (Disk.Ensure "logs/metric_log.csv" (Disk.Made false) Disk.Written
       :: List.map (Disk.Add Disk.Written) [r; r])
  = Disk.File (Disk.writerow Disk.header ++ Disk.lines [r; r]).
Proof.
  intros r. apply (proj2 (appends_compose [r; r]) "logs/metric_log.csv").
  vm_compute. do 4 right. left.
Defined.


Lemma missing_file_gets_no_header_witness :
  let r := Row "a" 1 2 1 in
  Disk.append_metric_row Disk.Written r Disk.Missing
  = (inr tt, Disk.File (Disk.writerow (Disk.fields_of r)))
  ∧ Disk.ensure_csv_with_header "logs/metric_log.csv" (Disk.Made false)
      (Disk.Write_fails 5 Disk.OtherOSError) Disk.Missing
    = (inl Disk.OtherOSError, Disk.File (take 5 (Disk.writerow Disk.header))).
Proof.
  intros r.
  destruct (missing_file_gets_no_header Disk.Written r 5 Disk.OtherOSError
              "logs/metric_log.csv" []) as (H1 & _ & H3 & _).
  - vm_compute. do 4 right. left.
  - split; [exact H1|exact H3].
Defined.

Lemma prediction_is_accepted_witness :
  let b := Document (Pipeline.message_features 0x1.09a0666666666p+14 [1; 2]%float) in
  let ws := Pipeline.on_message total "y_pred" (Pipeline.Publish_raises true) true 7 b in
  Pipeline.published ws ≠ [] ∧ Pipeline.Nack 7 true ∈ ws.
Proof.
  intros b ws.
  apply (proj2 (proj2 (proj2 (proj2 (proj2
           (@prediction_is_accepted ascii_runtime total "y_pred"
              (Pipeline.Publish_raises true) true 7 b)))))).
  split; [eexists; vm_compute; reflexivity|]. left. reflexivity.
Defined.

Lemma sample_gives_one_row_witness :
  let w1 := Env 0 0 Appends true in
  let w2 := Env 5 5 Appends true in
  let id := 0x1.09a0666666666p+14%float in
  ∃ doc_x doc_true doc_pred,
    Pipeline.turn "X" "y_true" id [1; 2]%float 4
    = [Pipeline.Publish "X" doc_x; Pipeline.Publish "y_true" doc_true]
    ∧ Pipeline.on_message total "y_pred" Pipeline.Publishes false 7 (Document doc_x)
      = [Pipeline.Publish "y_pred" doc_pred; Pipeline.Ack_raises 7; Pipeline.Nack 7 true]
    ∧ let r := Row "17000.1" 4 3 1 in
      metric_log (run 600 (truth_first w1 w2 1 2 (Document doc_true) (Document doc_pred))
                    initial) = metric_log initial ++ [Whole r]
      ∧ metric_log (run 600 (predicted_first w1 w2 1 2 (Document doc_true)
                               (Document doc_pred)) initial)
        = metric_log initial ++ [Whole r].
Proof.
  intros w1 w2 id.
  apply (@sample_gives_one_row ascii_runtime 600 total "X" "y_true" "y_pred" initial id
           [1; 2]%float 4%float 3%float w1 w2 false 7 1 2); vm_compute; reflexivity.
Defined.
